(** * Lesson 35, the text adventure capstone: world loader, command
      dispatcher and game session

    A shallow embedding of [35_capstone_awesome_text_adventure.c].

    - C strings are [string]s (the bytes before the terminating NUL).
    - [int] values are [Z], reduced to 32 bits where the program converts
      a numeral of the map file.
    - A [Room *] is [option nat]: [None] is [NULL] and [Some i] is the
      pointer stored in [all_rooms[i]].  Rooms are only ever allocated by
      [parse_room], which stores the fresh pointer in the next free slot
      of [all_rooms], so slots and live room pointers correspond one to
      one, and two pointers are equal exactly when their slots are.
    - Functions that return 0 or [NULL] on failure return [None];
      a handler that would dereference a null room pointer returns [None]
      as well.
    - [num_rooms] and [log_count] are the lengths of the lists that model
      [all_rooms] and [log_messages]. *)

From Stdlib Require Import ZArith String Ascii Lia.
From stdpp Require Import base option list strings.

Open Scope Z_scope.

(** ** The C library functions the program calls *)

Module CLib.

Definition dquote : ascii := "034"%char.
Definition newline : ascii := "010"%char.
Definition nul : ascii := "000"%char.

(** [isspace], [isdigit] and [tolower] of the C locale. *)
Definition isspace (c : ascii) : bool :=
  let n := nat_of_ascii c in
  (n =? 32)%nat || ((9 <=? n)%nat && (n <=? 13)%nat).

Definition isdigit (c : ascii) : bool :=
  let n := nat_of_ascii c in (48 <=? n)%nat && (n <=? 57)%nat.

Definition tolower (c : ascii) : ascii :=
  let n := nat_of_ascii c in
  if (65 <=? n)%nat && (n <=? 90)%nat then ascii_of_nat (n + 32) else c.

Fixpoint lowercase (s : string) : string :=
  match s with
  | EmptyString => EmptyString
  | String c s' => String (tolower c) (lowercase s')
  end.

(** [strcmp (a, b) == 0]. *)
Definition streq (a b : string) : bool := String.eqb a b.

(** [strncmp (a, b, n) == 0]: the first [n] characters agree, or both
    strings end together before that. *)
Fixpoint strncmp_eq (n : nat) (a b : string) : bool :=
  match n with
  | O => true
  | S n' =>
      match a, b with
      | EmptyString, EmptyString => true
      | String x a', String y b' => Ascii.eqb x y && strncmp_eq n' a' b'
      | _, _ => false
      end
  end.

(** The longest prefix whose characters satisfy [p], and what follows. *)
Fixpoint span (p : ascii -> bool) (s : string) : string * string :=
  match s with
  | EmptyString => (EmptyString, EmptyString)
  | String c s' =>
      if p c then let '(a, b) := span p s' in (String c a, b)
      else (EmptyString, s)
  end.

(** A two's-complement [int] of 32 bits.  ISO C gives no meaning to the
    conversion of a numeral that does not fit; the value kept here is
    its truncation to 32 bits. *)
Definition int_of_Z (z : Z) : Z :=
  let m := z mod 2 ^ 32 in
  if 2 ^ 31 <=? m then m - 2 ^ 32 else m.

(** *** The directives of [sscanf] *)

(** White space in a format: any amount of input white space. *)
Definition skip_space (s : string) : string := snd (span isspace s).

(** An ordinary character of a format must be the next input character. *)
Definition expect (c : ascii) (s : string) : option string :=
  match s with
  | String c' s' => if Ascii.eqb c c' then Some s' else None
  | EmptyString => None
  end.

Fixpoint expect_str (p : string) (s : string) : option string :=
  match p with
  | EmptyString => Some s
  | String c p' => s' ← expect c s; expect_str p' s'
  end.

Definition digit_value (c : ascii) : Z := Z.of_nat (nat_of_ascii c) - 48.

Fixpoint scan_digits (acc : Z) (s : string) : Z * string :=
  match s with
  | EmptyString => (acc, EmptyString)
  | String c s' =>
      if isdigit c then scan_digits (10 * acc + digit_value c) s'
      else (acc, s)
  end.

(** [%d]: leading white space, an optional sign, at least one digit. *)
Definition scan_int (s : string) : option (Z * string) :=
  let s := skip_space s in
  let '(negative, s) :=
    match s with
    | String "-"%char s' => (true, s')
    | String "+"%char s' => (false, s')
    | _ => (false, s)
    end in
  match s with
  | String c _ =>
      if isdigit c then
        let '(v, rest) := scan_digits 0 s in
        Some (int_of_Z (if negative then - v else v), rest)
      else None
  | EmptyString => None
  end.

(** [%s]: leading white space, then a non-empty run of characters that
    are not white space. *)
Definition scan_word (s : string) : option (string * string) :=
  match span (λ c, negb (isspace c)) (skip_space s) with
  | (EmptyString, _) => None
  | (w, rest) => Some (w, rest)
  end.

(** The scan set of every character but the double quote: a non-empty
    run of such characters; no white space is skipped. *)
Definition scan_unquoted (s : string) : option (string * string) :=
  match span (λ c, negb (Ascii.eqb c dquote)) s with
  | (EmptyString, _) => None
  | (w, rest) => Some (w, rest)
  end.

(** *** [strtok] with the delimiters space and newline

    The token and the text after the delimiter that ended it (the
    position [strtok] keeps for the next call). *)
Definition is_delim (c : ascii) : bool :=
  Ascii.eqb c " "%char || Ascii.eqb c newline.

Definition strtok (s : string) : option (string * string) :=
  match span (λ c, negb (is_delim c)) (snd (span is_delim s)) with
  | (EmptyString, _) => None
  | (tok, rest) =>
      Some (tok, match rest with String _ r => r | EmptyString => EmptyString end)
  end.

(** *** [fgets] and the text of a file

    [fgets n s] reads at most [n] characters of [s], stopping after a
    newline; the program calls it with [n = sizeof line - 1]. *)
Fixpoint fgets (n : nat) (s : string) : string * string :=
  match n, s with
  | S n', String c s' =>
      if Ascii.eqb c newline then (String c EmptyString, s')
      else let '(l, r) := fgets n' s' in (String c l, r)
  | _, _ => (EmptyString, s)
  end.

(** The buffer read as a C string ends at its first NUL. *)
Definition c_str (s : string) : string :=
  fst (span (λ c, negb (Ascii.eqb c nul)) s).

(** The successive results of [while (fgets (line, size, file))]: the
    loop ends when nothing is left to read.  Every call consumes a
    character, so the length of the text bounds the number of calls. *)
Fixpoint read_lines (fuel : nat) (size : nat) (s : string) : list string :=
  match fuel with
  | O => []
  | S fuel' =>
      match s with
      | EmptyString => []
      | _ => let '(l, r) := fgets (size - 1) s in
             c_str l :: read_lines fuel' size r
      end
  end.

Definition file_lines (size : nat) (s : string) : list string :=
  read_lines (String.length s) size s.

End CLib.

Import CLib.

(** ** Game constants and data structures *)

Definition MAX_DIRECTIONS : nat := 4.
Definition MAX_ROOMS : nat := 100.
Definition MAX_LOG_MESSAGES : nat := 10.
Definition LINE_SIZE : nat := 512.

Inductive Direction := NORTH | SOUTH | EAST | WEST.

#[global] Instance Direction_eq_dec : EqDecision Direction.
Proof. solve_decision. Defined.

(** The enumeration order, which is the order of [for (i = 0; i <
    MAX_DIRECTIONS; i++)]. *)
Definition all_directions : list Direction := [NORTH; SOUTH; EAST; WEST].

(** A room pointer: [None] is [NULL], [Some i] the room of slot [i]. *)
Definition room_ptr := option nat.

(** [exits] is the array of [MAX_DIRECTIONS] room pointers, indexed by
    the enumeration. *)
Record Room := mkRoom {
  id : Z;
  description : string;
  exits : Direction -> room_ptr
}.

Record Player := mkPlayer { current_room : room_ptr }.

Record GameState := mkGame {
  player : Player;
  all_rooms : list Room;
  game_should_close : bool;
  log_messages : list string
}.

Definition num_rooms (game : GameState) : nat := length (all_rooms game).
Definition log_count (game : GameState) : nat := length (log_messages game).

Definition set_all_rooms (game : GameState) (rooms : list Room) : GameState :=
  mkGame (player game) rooms (game_should_close game) (log_messages game).

Definition set_current_room (game : GameState) (p : room_ptr) : GameState :=
  mkGame (mkPlayer p) (all_rooms game) (game_should_close game)
         (log_messages game).

Definition set_game_should_close (game : GameState) (b : bool) : GameState :=
  mkGame (player game) (all_rooms game) b (log_messages game).

Definition set_log_messages (game : GameState) (l : list string) : GameState :=
  mkGame (player game) (all_rooms game) (game_should_close game) l.

(** [room->exits[dir] = target]. *)
Definition set_exit (room : Room) (dir : Direction) (target : room_ptr) : Room :=
  mkRoom (id room) (description room)
         (λ d, if decide (d = dir) then target else exits room d).

(** The zeroed [GameState] of [memset (game, 0, sizeof (GameState))]. *)
Definition empty_game : GameState := mkGame (mkPlayer None) [] false [].

(** The zeroed [Room] with its id and description filled in. *)
Definition new_room (i : Z) (desc : string) : Room := mkRoom i desc (λ _, None).

(** ** World loading and parsing *)

(** [find_room_by_id]: the first slot whose room has the id. *)
Definition find_room_by_id (game : GameState) (i : Z) : room_ptr :=
  fst <$> list_find (λ r, id r = i) (all_rooms game).

(** The [sscanf] of [parse_room] converts two items: after the literal
    [room], an integer, then a double quote and a non-empty run of
    characters other than the double quote.  [Some] stands for a return
    value of 2: both conversions are done once the scan set has matched,
    and whether the closing quote of the format follows does not change
    the count. *)
Definition sscanf_room (line : string) : option (Z * string) :=
  s ← expect_str "room" line;
  '(i, s) ← scan_int (skip_space s);
  s ← expect dquote (skip_space s);
  '(desc, _) ← scan_unquoted s;
  Some (i, desc).

(** The [sscanf] of [parse_link] converts three items: after the literal
    [link], an integer, a word and an integer.  [Some] stands for a
    return value of 3.  The word is kept whole; in C one of ten or more
    characters does not fit [dir_str], and none of that length is a
    direction code. *)
Definition sscanf_link (line : string) : option (Z * string * Z) :=
  s ← expect_str "link" line;
  '(from_id, s) ← scan_int (skip_space s);
  '(dir_str, s) ← scan_word (skip_space s);
  '(to_id, _) ← scan_int (skip_space s);
  Some (from_id, dir_str, to_id).

(** The chain of [strcmp]s on [dir_str] in [parse_link]. *)
Definition direction_of_code (dir_str : string) : option Direction :=
  if streq dir_str "n" then Some NORTH
  else if streq dir_str "s" then Some SOUTH
  else if streq dir_str "e" then Some EAST
  else if streq dir_str "w" then Some WEST
  else None.

Definition parse_room (line : string) (game : GameState) : option GameState :=
  if bool_decide (MAX_ROOMS ≤ num_rooms game)%nat then None
  else
    '(i, desc) ← sscanf_room line;
    Some (set_all_rooms game (all_rooms game ++ [new_room i desc])).

Definition parse_link (line : string) (game : GameState) : option GameState :=
  '(from_id, dir_str, to_id) ← sscanf_link line;
  match find_room_by_id game from_id, find_room_by_id game to_id with
  | Some from_room, Some to_room =>
      dir ← direction_of_code dir_str;
      Some (set_all_rooms game
              (alter (λ r, set_exit r dir (Some to_room)) from_room
                     (all_rooms game)))
  | _, _ => None
  end.

Definition is_room_line (line : string) : bool := strncmp_eq 4 line "room".
Definition is_link_line (line : string) : bool := strncmp_eq 4 line "link".

(** Pass 1: every line that starts with [room] is given to [parse_room]. *)
Fixpoint load_rooms (lines : list string) (game : GameState)
  : option GameState :=
  match lines with
  | [] => Some game
  | line :: rest =>
      if is_room_line line then
        game' ← parse_room line game; load_rooms rest game'
      else load_rooms rest game
  end.

(** Pass 2: every line that starts with [link] is given to [parse_link]. *)
Fixpoint load_links (lines : list string) (game : GameState)
  : option GameState :=
  match lines with
  | [] => Some game
  | line :: rest =>
      if is_link_line line then
        game' ← parse_link line game; load_links rest game'
      else load_links rest game
  end.

(** The lines both passes read from the file. *)
Definition map_lines (text : string) : list string :=
  file_lines LINE_SIZE text.

(** [load_world]; the argument is the content of the file named on the
    command line, [None] when [fopen] fails. *)
Definition load_world (file : option string) : option GameState :=
  text ← file;
  game ← load_rooms (map_lines text) empty_game;
  load_links (map_lines text) game.

(** The exit of the room in slot [i] in direction [d]; [None] when the
    slot is empty or the exit is [NULL]. *)
Definition exit_of (game : GameState) (i : nat) (d : Direction) : room_ptr :=
  r ← all_rooms game !! i; exits r d.

Definition direction_to_string (d : Direction) : string :=
  match d with
  | NORTH => "north"
  | SOUTH => "south"
  | EAST => "east"
  | WEST => "west"
  end.

(** ** The transcript log *)

(** [ui_log]: when the log is full the oldest message is freed and the
    others move up one slot; the copy of [message] goes into the first
    free slot. *)
Definition ui_log (game : GameState) (message : string) : GameState :=
  let kept :=
    if bool_decide (MAX_LOG_MESSAGES ≤ log_count game)%nat
    then tail (log_messages game)
    else log_messages game in
  set_log_messages game (kept ++ [message]).

(** ** Command handling *)

Definition Handler := GameState -> option string -> option GameState.

Definition handle_quit : Handler :=
  λ game argument, Some (set_game_should_close game true).

(** The loop of [handle_look] over the exits: the text built so far and
    [found_exit]. *)
Definition look_step (room : Room) (acc : string * bool) (d : Direction)
  : string * bool :=
  match exits room d with
  | Some _ => (fst acc +:+ direction_to_string d +:+ " ", true)
  | None => acc
  end.

Definition handle_look : Handler :=
  λ game argument,
    i ← current_room (player game);
    room ← all_rooms game !! i;
    let game := ui_log game (description room) in
    let '(exits_str, found_exit) :=
      foldl (look_step room) ("Exits: ", false) all_directions in
    if found_exit then Some (ui_log game exits_str)
    else Some (ui_log game "There are no obvious exits.").

(** The chain of [strcmp]s of [handle_go]; [None] is the [-1] that marks
    an argument naming no direction. *)
Definition direction_of_word (argument : string) : option Direction :=
  if streq argument "n" || streq argument "north" then Some NORTH
  else if streq argument "s" || streq argument "south" then Some SOUTH
  else if streq argument "e" || streq argument "east" then Some EAST
  else if streq argument "w" || streq argument "west" then Some WEST
  else None.

Definition handle_go : Handler :=
  λ game argument,
    match argument with
    | None => Some (ui_log game "Go where?")
    | Some word =>
        match direction_of_word word with
        | None => Some (ui_log game "That's not a valid direction.")
        | Some dir =>
            i ← current_room (player game);
            room ← all_rooms game !! i;
            match exits room dir with
            | Some next_room =>
                handle_look (set_current_room game (Some next_room)) None
            | None => Some (ui_log game "You can't go that way.")
            end
        end
    end.

Definition handle_help : Handler :=
  λ game argument,
    let game := ui_log game "--- Available Commands ---" in
    let game := ui_log game "look (l): Describe the current room and exits." in
    let game :=
      ui_log game
        "go <dir>: Move in a direction (north, south, east, west, or n,s,e,w)." in
    let game := ui_log game "help: Show this help message." in
    Some (ui_log game "quit/exit: Leave the game.").

Record Command := mkCommand { command : string; handler : Handler }.

Definition command_table : list Command :=
  [ mkCommand "quit" handle_quit;
    mkCommand "exit" handle_quit;
    mkCommand "look" handle_look;
    mkCommand "l" handle_look;
    mkCommand "go" handle_go;
    mkCommand "north" handle_go;
    mkCommand "south" handle_go;
    mkCommand "east" handle_go;
    mkCommand "west" handle_go;
    mkCommand "n" handle_go;
    mkCommand "s" handle_go;
    mkCommand "e" handle_go;
    mkCommand "w" handle_go;
    mkCommand "help" handle_help ].

(** The test for a single-word movement command. *)
Definition is_direction_word (verb : string) : bool :=
  streq verb "n" || streq verb "north" ||
  streq verb "s" || streq verb "south" ||
  streq verb "e" || streq verb "east" ||
  streq verb "w" || streq verb "west".

(** The scan of the command table: the first entry whose name is [verb]. *)
Fixpoint lookup_command (table : list Command) (verb : string)
  : option Command :=
  match table with
  | [] => None
  | c :: rest => if streq verb (command c) then Some c
                 else lookup_command rest verb
  end.

Definition parse_and_execute_command (game : GameState) (input : string)
  : option GameState :=
  let input := lowercase input in
  match strtok input with
  | None => Some game
  | Some (verb, rest) =>
      let argument := fst <$> strtok rest in
      let '(verb, argument) :=
        if is_direction_word verb then ("go", Some verb)
        else (verb, argument) in
      match lookup_command command_table verb with
      | Some c => handler c game argument
      | None => Some (ui_log game "I don't understand that command.")
      end
  end.

(** ** Game lifecycle *)

(** The input source: the successive contents of [input_buffer] after
    [ui_get_input], each of at most [INPUT_BUFFER_SIZE - 1] characters.
    The function does not look at what [wgetnstr] returns; when nothing
    is left to read, [wgetnstr] terminates the buffer where it stands
    and reports the failure, so the buffer holds the empty string. *)
Definition ui_get_input (input : list string) : string * list string :=
  match input with
  | line :: rest => (line, rest)
  | [] => (EmptyString, [])
  end.

(** [ui_draw] reads [player.current_room->id] and the log and changes
    nothing in the game state. *)
Definition ui_draw (game : GameState) : option GameState :=
  i ← current_room (player game);
  _ ← all_rooms game !! i;
  Some game.

(** What [fuel] iterations of the loop of [game_loop] come to. *)
Inductive LoopResult :=
| Returned (game : GameState) (unread : list string)
| Undefined
| StillRunning.

Fixpoint game_loop (fuel : nat) (game : GameState) (input : list string)
  : LoopResult :=
  if game_should_close game then Returned game input
  else
    match fuel with
    | O => StillRunning
    | S fuel' =>
        match ui_draw game with
        | None => Undefined
        | Some game =>
            let '(input_buffer, input) := ui_get_input input in
            match parse_and_execute_command game input_buffer with
            | None => Undefined
            | Some game => game_loop fuel' game input
            end
        end
    end.

(** What [main] does between [load_world] and [game_loop]: the player is
    put in the room with id 0, and the welcome and the first look are
    logged.  [None] is an exit with status 1. *)
Definition start_game (file : option string) : option GameState :=
  game ← load_world file;
  start ← find_room_by_id game 0;
  let game := set_current_room game (Some start) in
  let game :=
    ui_log game
      "Welcome to the Awesome Text Adventure! Type 'help' for commands." in
  handle_look game None.

(** ** Vocabulary of the statements

    What a map text declares, read off its lines with the program's own
    line tests and scanners. *)

(** The declaration a line makes in pass 1, if it is a room line that
    scans. *)
Definition room_decl (line : string) : option (Z * string) :=
  if is_room_line line then sscanf_room line else None.

(** The link a line declares in pass 2, if it is a link line that scans
    and names a direction. *)
Definition link_decl (line : string) : option (Z * Direction * Z) :=
  if is_link_line line then
    '(from_id, dir_str, to_id) ← sscanf_link line;
    dir ← direction_of_code dir_str;
    Some (from_id, dir, to_id)
  else None.

Definition declared_rooms (lines : list string) : list (Z * string) :=
  omap room_decl lines.

Definition declared_ids (lines : list string) : list Z :=
  fst <$> declared_rooms lines.

Definition room_line_count (lines : list string) : nat :=
  length (filter (λ l, is_room_line l = true) lines).

Definition room_line_ok (line : string) : bool :=
  if is_room_line line then bool_decide (is_Some (sscanf_room line)) else true.

Definition link_line_ok (ids : list Z) (line : string) : bool :=
  if is_link_line line then
    match link_decl line with
    | Some (from_id, _, to_id) =>
        bool_decide (from_id ∈ ids) && bool_decide (to_id ∈ ids)
    | None => false
    end
  else true.

(** A well-formed map: every room line scans, there are at most
    [MAX_ROOMS] of them, and every link line scans, names one of the
    four directions and joins two declared ids. *)
Definition well_formed_map (lines : list string) : bool :=
  forallb room_line_ok lines
  && bool_decide (room_line_count lines ≤ MAX_ROOMS)%nat
  && forallb (link_line_ok (declared_ids lines)) lines.

(** The target id of the last link line for the slot [(from_id, dir)]. *)
Fixpoint last_link (lines : list string) (from_id : Z) (dir : Direction)
  : option Z :=
  match lines with
  | [] => None
  | line :: rest =>
      match last_link rest from_id dir with
      | Some to_id => Some to_id
      | None =>
          match link_decl line with
          | Some (f, d, to_id) =>
              if decide (f = from_id ∧ d = dir) then Some to_id else None
          | None => None
          end
      end
  end.

(** The invariants of a running game: each exit of a room points to a
    slot in use, so does the player's current room, and the log fits its
    array. *)
Definition exits_resolve (game : GameState) : Prop :=
  ∀ i r d j, all_rooms game !! i = Some r → exits r d = Some j →
             (j < num_rooms game)%nat.

Definition game_ok (game : GameState) : Prop :=
  exits_resolve game ∧
  (∃ i, current_room (player game) = Some i ∧ (i < num_rooms game)%nat) ∧
  (log_count game ≤ MAX_LOG_MESSAGES)%nat.

(** [link_at lines p f d t]: line [p] declares the link [(f, d, t)];
    [no_link_after lines p f d]: no later line declares a link for the
    slot [(f, d)]; [room_at lines q x]: line [q] declares a room with
    id [x]. *)
Definition link_at (lines : list string) (p : nat)
    (from_id : Z) (dir : Direction) (to_id : Z) : Prop :=
  ∃ line, lines !! p = Some line ∧ link_decl line = Some (from_id, dir, to_id).

Definition no_link_after (lines : list string) (p : nat)
    (from_id : Z) (dir : Direction) : Prop :=
  ∀ k line to_id, (p < k)%nat → lines !! k = Some line →
                  link_decl line ≠ Some (from_id, dir, to_id).

Definition room_at (lines : list string) (q : nat) (x : Z) : Prop :=
  ∃ line desc, lines !! q = Some line ∧ room_decl line = Some (x, desc).

(** A link line at [p] one of whose rooms is declared on a later line. *)
Definition forward_reference (lines : list string) (p : nat)
    (from_id : Z) (dir : Direction) (to_id : Z) : Prop :=
  link_at lines p from_id dir to_id ∧
  ∃ q, (p < q)%nat ∧ (room_at lines q from_id ∨ room_at lines q to_id).

(** The three ways a line makes [load_world] give up. *)
Definition unscanned_room_line (line : string) : Prop :=
  is_room_line line = true ∧ sscanf_room line = None.

Definition unscanned_link_line (line : string) : Prop :=
  is_link_line line = true ∧
  (sscanf_link line = None ∨
   ∃ from_id dir_str to_id,
     sscanf_link line = Some (from_id, dir_str, to_id) ∧
     direction_of_code dir_str = None).

Definition dangling_link_line (ids : list Z) (line : string) : Prop :=
  is_link_line line = true ∧
  ∃ from_id dir_str to_id,
    sscanf_link line = Some (from_id, dir_str, to_id) ∧
    (from_id ∉ ids ∨ to_id ∉ ids).

(** The second message of a look at [room]: the exits line, or the
    notice that there are none. *)
Definition exits_message (room : Room) : string :=
  let '(exits_str, found_exit) :=
    foldl (look_step room) ("Exits: ", false) all_directions in
  if found_exit then exits_str else "There are no obvious exits.".

(** The log after [ui_log]: the messages kept and the new one. *)
Definition logged (log : list string) (message : string) : list string :=
  (if bool_decide (MAX_LOG_MESSAGES ≤ length log)%nat then tail log else log)
  ++ [message].

(** An input line whose verb, once in lower case, is [quit] or [exit]. *)
Definition is_quit_command (input : string) : bool :=
  match strtok (lowercase input) with
  | Some (verb, _) => streq verb "quit" || streq verb "exit"
  | None => false
  end.

(** The commands of [inputs] dispatched one after the other. *)
Fixpoint run_commands (inputs : list string) (game : GameState)
  : option GameState :=
  match inputs with
  | [] => Some game
  | input :: rest =>
      game' ← parse_and_execute_command game input; run_commands rest game'
  end.

(** The three ways [handle_go] refuses to move, with the message of each. *)
Inductive go_refused (game : GameState) : option string -> string -> Prop :=
| go_no_argument :
    go_refused game None "Go where?"
| go_no_direction word :
    direction_of_word word = None →
    go_refused game (Some word) "That's not a valid direction."
| go_no_exit word dir i room :
    direction_of_word word = Some dir →
    current_room (player game) = Some i →
    all_rooms game !! i = Some room →
    exits room dir = None →
    go_refused game (Some word) "You can't go that way.".

(** ** Example maps *)

Definition quoted (s : string) : string :=
  String dquote s +:+ String dquote EmptyString.

Definition text_of (lines : list string) : string :=
  String.concat (String newline EmptyString) lines.

(** A link before the rooms it joins. *)
Definition forward_map : string :=
  text_of [ "link 0 n 1"; "room 0 " +:+ quoted "Library";
            "room 1 " +:+ quoted "Cavern"; "link 1 s 0" ].

(** Two links for the north exit of room 0, both before the rooms they
    lead to. *)
Definition overridden_map : string :=
  text_of [ "room 0 " +:+ quoted "Library"; "link 0 n 1"; "link 0 n 2";
            "room 1 " +:+ quoted "Cavern"; "room 2 " +:+ quoted "Tunnel" ].

(** Two rooms with the id 1. *)
Definition duplicate_id_map : string :=
  text_of [ "room 1 " +:+ quoted "Library"; "room 1 " +:+ quoted "Cavern" ].

(** Two rooms and a link north from the first to the second. *)
Definition small_map : string :=
  text_of [ "room 0 " +:+ quoted "A"; "room 1 " +:+ quoted "B"; "link 0 n 1" ].

(** A link to a room that is not declared. *)
Definition dangling_map : string :=
  text_of [ "room 0 " +:+ quoted "Library"; "link 0 n 7" ].

(** One room line more than [MAX_ROOMS]. *)
Definition crowded_map : string :=
  text_of (replicate (S MAX_ROOMS) ("room 5 " +:+ quoted "Cell")).

(** The state after pass 1 on two room lines. *)
Definition two_rooms : GameState :=
  mkGame (mkPlayer None) [new_room 0 "Library"; new_room 1 "Cavern"] false [].

(** A game whose log is full. *)
Definition full_log_game : GameState :=
  mkGame (mkPlayer None) [] false
         ["m0"; "m1"; "m2"; "m3"; "m4"; "m5"; "m6"; "m7"; "m8"; "m9"].

(** The player in the library of [forward_map], whose only exit is north
    to the cavern. *)
Definition library : Room :=
  mkRoom 0 "Library" (λ d, if decide (d = NORTH) then Some 1%nat else None).

Definition cavern : Room :=
  mkRoom 1 "Cavern" (λ d, if decide (d = SOUTH) then Some 0%nat else None).

Definition in_library : GameState :=
  mkGame (mkPlayer (Some 0%nat)) [library; cavern] false ["Library"].

(** ** Further vocabulary: the program as a whole *)

(** Whether every character of a string passes a test. *)
Fixpoint string_forall (p : ascii -> bool) (s : string) : bool :=
  match s with
  | EmptyString => true
  | String c s' => p c && string_forall p s'
  end.

Definition not_dquote (c : ascii) : bool := negb (Ascii.eqb c dquote).

(** The values of an [int]. *)
Definition int_range (z : Z) : Prop := - 2 ^ 31 ≤ z < 2 ^ 31.

Definition not_nul (c : ascii) : bool := negb (Ascii.eqb c nul).

(** The last [n] elements of a list, all of them when there are fewer. *)
Definition most_recent {A} (n : nat) (l : list A) : list A :=
  drop (length l - n) l.

(** An input line whose verb, once in lower case, is [go] or one of the
    eight direction words. *)
Definition is_go_command (input : string) : bool :=
  match strtok (lowercase input) with
  | Some (verb, _) => streq verb "go" || is_direction_word verb
  | None => false
  end.

Definition command_names : list string := command <$> command_table.

(** The directions in which [room] has an exit, in enumeration order. *)
Definition shown_exits (room : Room) : list Direction :=
  filter (λ d, is_Some (exits room d)) all_directions.

(** [main]: [argv] is the argument vector and [fs] the content of the
    file of a given name, [None] when it cannot be opened.  The result
    is the exit status, [None] when the loop has not returned within
    [fuel] iterations. *)
Definition main (argv : list string) (fs : string -> option string)
    (fuel : nat) (input : list string) : option Z :=
  match argv with
  | [_; filename] =>
      match start_game (fs filename) with
      | None => Some 1
      | Some game =>
          match game_loop fuel game input with
          | Returned _ _ => Some 0
          | _ => None
          end
      end
  | _ => Some 1
  end.

(** The same rooms and links, once with the rooms first and a comment,
    once with the links first. *)
Definition ordered_map : string :=
  text_of [ "# the map"; "room 0 " +:+ quoted "Library";
            "room 1 " +:+ quoted "Cavern"; ""; "link 0 n 1"; "link 1 s 0";
            "" ].

Definition shuffled_map : string :=
  text_of [ "link 0 n 1"; "link 1 s 0"; "room 0 " +:+ quoted "Library";
            "room 1 " +:+ quoted "Cavern"; "" ].

Definition welcome : string :=
  "Welcome to the Awesome Text Adventure! Type 'help' for commands.".

(** A file system with the one file [world.map]. *)
Definition one_file (text : string) : string -> option string :=
  λ name, if streq name "world.map" then Some text else None.

(** ** Facts about the C library model *)

Section CLibFacts.

Lemma span_app p s : fst (span p s) +:+ snd (span p s) = s.
Proof.
  induction s as [|c s IH]; simpl; [done|].
  destruct (p c); simpl; [|done].
  destruct (span p s) as [a b]; simpl in *.
  change (String c (a +:+ b) = String c s). by rewrite IH.
Qed.

Lemma fgets_app n s : fst (fgets n s) +:+ snd (fgets n s) = s.
Proof.
  revert s; induction n as [|n IH]; intros [|c s]; simpl; try done.
  destruct (Ascii.eqb c newline); simpl; [done|].
  specialize (IH s). destruct (fgets n s) as [l r]; simpl in *.
  change (String c (l +:+ r) = String c s). by rewrite IH.
Qed.

Lemma fgets_progress n c s :
  (String.length (snd (fgets (S n) (String c s))) < String.length (String c s))%nat.
Proof.
  revert c s; induction n as [|n IH]; intros c s; simpl.
  - destruct (Ascii.eqb c newline); simpl; [lia|].
    destruct s; simpl; lia.
  - destruct (Ascii.eqb c newline); simpl; [lia|].
    destruct s as [|c' s]; simpl; [lia|].
    specialize (IH c' s). simpl in IH.
    destruct (Ascii.eqb c' newline); simpl in *; [lia|].
    destruct (fgets n s) as [l r]; simpl in *. lia.
Qed.

(** More fuel than the length of the text reads no more lines: the loop
    over [fgets] has ended by then. *)
Lemma read_lines_fuel size fuel s :
  (1 < size)%nat → (String.length s ≤ fuel)%nat →
  read_lines fuel size s = file_lines size s.
Proof.
  intros Hsize. unfold file_lines.
  remember (String.length s) as n eqn:Hn.
  revert s Hn fuel. induction n as [n IH] using lt_wf_ind.
  intros s Hn fuel Hfuel.
  destruct s as [|c s]; [destruct fuel; subst; done|].
  destruct fuel as [|fuel]; [simpl in *; lia|].
  destruct n as [|n]; [done|].
  assert (∃ k, size - 1 = S k)%nat as [k Hk] by (exists (size - 2)%nat; lia).
  cbn [read_lines]. rewrite Hk.
  pose proof (fgets_progress k c s) as Hlt.
  destruct (fgets (S k) (String c s)) as [l r]; simpl in Hlt.
  f_equal.
  rewrite (IH (String.length r)); [|simpl in Hn; lia|done|simpl in *; lia].
  symmetry. apply (IH (String.length r)); simpl in *; lia.
Qed.

End CLibFacts.

(** ** Facts about the loader *)

Section LoaderFacts.

Implicit Types (game : GameState) (line : string) (lines : list string).

Lemma find_room_by_id_Some game x i :
  find_room_by_id game x = Some i ↔
  ∃ r, all_rooms game !! i = Some r ∧ id r = x ∧
       ∀ j r', all_rooms game !! j = Some r' → (j < i)%nat → id r' ≠ x.
Proof.
  unfold find_room_by_id. split.
  - destruct (list_find _ _) as [[i' r]|] eqn:E; [|done].
    intros [= <-]. apply list_find_Some in E as (? & ? & ?). eauto.
  - intros (r & Hr & Hx & Hlt).
    assert (list_find (λ r, id r = x) (all_rooms game) = Some (i, r)) as ->;
      [|done].
    apply list_find_Some. naive_solver.
Qed.

Lemma find_room_by_id_None game x :
  find_room_by_id game x = None ↔ x ∉ id <$> all_rooms game.
Proof.
  unfold find_room_by_id.
  destruct (list_find _ _) as [[i r]|] eqn:E; simpl.
  - apply list_find_Some in E as (Hr & Hx & _). split; [done|].
    intros []. apply list_elem_of_fmap. exists r.
    split; [done | by eapply list_elem_of_lookup_2].
  - apply list_find_None in E. split; [|done]. intros _.
    rewrite list_elem_of_fmap. intros (r & -> & Hr).
    rewrite Forall_forall in E. by apply (E r).
Qed.

Lemma find_room_by_id_is_Some game x :
  is_Some (find_room_by_id game x) ↔ x ∈ id <$> all_rooms game.
Proof.
  rewrite <- not_eq_None_Some, find_room_by_id_None.
  split; [apply dec_stable | auto].
Qed.

Lemma find_room_by_id_lt game x i :
  find_room_by_id game x = Some i → (i < num_rooms game)%nat.
Proof.
  rewrite find_room_by_id_Some. intros (r & Hr & _).
  by apply lookup_lt_Some in Hr.
Qed.

(** The search looks at the ids only. *)
Lemma find_room_by_id_ids game game' x :
  id <$> all_rooms game = id <$> all_rooms game' →
  find_room_by_id game x = find_room_by_id game' x.
Proof.
  unfold find_room_by_id.
  generalize (all_rooms game) (all_rooms game'). clear game game'.
  induction l as [|r l IH]; intros [|r' l']; try done.
  intros [= Hid Hids]. simpl. rewrite Hid.
  case_decide; [done|].
  specialize (IH l' Hids).
  destruct (list_find _ l) as [[k a]|], (list_find _ l') as [[k' a']|];
    simplify_eq/=; done.
Qed.

(** Two ids found in the same slot are the same id. *)
Lemma find_room_by_id_inj game x y i :
  find_room_by_id game x = Some i → find_room_by_id game y = Some i → x = y.
Proof.
  rewrite !find_room_by_id_Some.
  intros (r & Hr & <- & _) (r' & Hr' & <- & _). congruence.
Qed.

Lemma set_exit_ids dir target (rooms : list Room) i :
  id <$> alter (λ r, set_exit r dir target) i rooms = id <$> rooms.
Proof.
  revert i; induction rooms as [|r rooms IH]; intros [|i]; simpl; f_equal;
    try done; apply IH.
Qed.

Lemma set_exit_descriptions dir target (rooms : list Room) i :
  description <$> alter (λ r, set_exit r dir target) i rooms
  = description <$> rooms.
Proof.
  revert i; induction rooms as [|r rooms IH]; intros [|i]; simpl; f_equal;
    try done; apply IH.
Qed.

(** *** [parse_room] and pass 1 *)

Lemma parse_room_Some line game game' :
  parse_room line game = Some game' ↔
  (num_rooms game < MAX_ROOMS)%nat ∧
  ∃ i desc, sscanf_room line = Some (i, desc) ∧
            game' = set_all_rooms game (all_rooms game ++ [new_room i desc]).
Proof.
  unfold parse_room. case_bool_decide.
  - split; [done | lia].
  - destruct (sscanf_room line) as [[i desc]|]; simpl.
    + split; [intros [= <-]; split; [lia | eauto] |].
      by intros (_ & i' & desc' & [= <- <-] & ->).
    + split; [done |]. by intros (_ & i' & desc' & [=] & _).
Qed.

Lemma parse_room_full line game :
  (MAX_ROOMS ≤ num_rooms game)%nat → parse_room line game = None.
Proof. intros. unfold parse_room. by rewrite bool_decide_eq_true_2. Qed.

Lemma declared_rooms_cons line lines :
  declared_rooms (line :: lines)
  = match room_decl line with
    | Some d => d :: declared_rooms lines
    | None => declared_rooms lines
    end.
Proof. done. Qed.

Lemma room_line_count_cons line lines :
  room_line_count (line :: lines)
  = if is_room_line line then S (room_line_count lines)
    else room_line_count lines.
Proof.
  unfold room_line_count. rewrite filter_cons.
  destruct (is_room_line line); by case_decide.
Qed.

(** What pass 1 leaves when it succeeds: the rooms the lines declare,
    in file order, behind the rooms there were; nothing else changes. *)
Lemma load_rooms_Some lines game game' :
  load_rooms lines game = Some game' →
  game' = set_all_rooms game
            (all_rooms game
             ++ ((λ d, new_room d.1 d.2) <$> declared_rooms lines))
  ∧ length (declared_rooms lines) = room_line_count lines
  ∧ forallb room_line_ok lines = true
  ∧ (room_line_count lines = 0%nat
     ∨ (num_rooms game + room_line_count lines ≤ MAX_ROOMS)%nat).
Proof.
  revert game. induction lines as [|line lines IH]; intros game;
    cbn [load_rooms forallb].
  - intros [= <-]. destruct game; unfold set_all_rooms; simpl.
    rewrite app_nil_r. auto.
  - rewrite declared_rooms_cons, room_line_count_cons.
    unfold room_decl, room_line_ok.
    destruct (is_room_line line) eqn:Hroom; [|by apply IH].
    destruct (parse_room line game) as [game1|] eqn:Hparse; [|done].
    apply parse_room_Some in Hparse as (Hlt & i & desc & Hscan & ->).
    rewrite Hscan. cbn [mbind option_bind]. intros Hload.
    apply IH in Hload as (-> & Hlen & Hok & Hcount).
    split; [|split; [|split]].
    + unfold set_all_rooms; cbn. by rewrite <- app_assoc.
    + cbn. by rewrite Hlen.
    + rewrite bool_decide_eq_true_2 by eauto. exact Hok.
    + right. unfold num_rooms, set_all_rooms in *; cbn in *.
      rewrite length_app in Hcount; cbn in Hcount. destruct Hcount; lia.
Qed.

(** Pass 1 succeeds when every room line scans and the rooms fit. *)
Lemma load_rooms_succeeds lines game :
  forallb room_line_ok lines = true →
  (num_rooms game + room_line_count lines ≤ MAX_ROOMS)%nat →
  is_Some (load_rooms lines game).
Proof.
  revert game. induction lines as [|line lines IH]; intros game; simpl;
    [eauto|].
  rewrite room_line_count_cons. unfold room_line_ok.
  destruct (is_room_line line) eqn:Hroom; [|by apply IH].
  rewrite andb_true_iff, bool_decide_eq_true.
  intros [[[i desc] Hscan] Hok] Hfit.
  assert (parse_room line game
          = Some (set_all_rooms game (all_rooms game ++ [new_room i desc])))
    as ->.
  { apply parse_room_Some. split; [lia | eauto]. }
  simpl. apply IH; [done|].
  unfold num_rooms, set_all_rooms in *; simpl.
  rewrite length_app; simpl. lia.
Qed.

(** *** [parse_link] and pass 2 *)

Lemma parse_link_Some line game game' :
  parse_link line game = Some game' ↔
  ∃ from_id dir_str to_id dir from_room to_room,
    sscanf_link line = Some (from_id, dir_str, to_id) ∧
    direction_of_code dir_str = Some dir ∧
    find_room_by_id game from_id = Some from_room ∧
    find_room_by_id game to_id = Some to_room ∧
    game' = set_all_rooms game
              (alter (λ r, set_exit r dir (Some to_room)) from_room
                     (all_rooms game)).
Proof.
  unfold parse_link. split.
  - destruct (sscanf_link line) as [[[f ds] t]|]; [|done]; simpl.
    destruct (find_room_by_id game f) as [i|] eqn:Hf; [|done].
    destruct (find_room_by_id game t) as [j|] eqn:Ht; [|done].
    destruct (direction_of_code ds) as [d|] eqn:Hd; [|done]; simpl.
    intros [= <-]. by exists f, ds, t, d, i, j.
  - intros (f & ds & t & d & i & j & Hscan & Hd & Hf & Ht & ->).
    rewrite Hscan; simpl. by rewrite Hf, Ht, Hd.
Qed.

Lemma exit_of_set_exit game i dir target i' d' :
  (i < num_rooms game)%nat →
  exit_of (set_all_rooms game
             (alter (λ r, set_exit r dir target) i (all_rooms game))) i' d'
  = if decide (i' = i ∧ d' = dir) then target else exit_of game i' d'.
Proof.
  intros Hlt. unfold exit_of, set_all_rooms; cbn [all_rooms].
  destruct (decide (i' = i)) as [->|Hne].
  - rewrite list_lookup_alter_eq.
    destruct (lookup_lt_is_Some_2 _ _ Hlt) as [r ->]; simpl.
    repeat case_decide; try done; tauto.
  - rewrite list_lookup_alter_ne by done. case_decide; [tauto | done].
Qed.

(** A link line changes exits only. *)
Lemma parse_link_frame line game game' :
  parse_link line game = Some game' →
  id <$> all_rooms game' = id <$> all_rooms game ∧
  description <$> all_rooms game' = description <$> all_rooms game ∧
  player game' = player game ∧
  game_should_close game' = game_should_close game ∧
  log_messages game' = log_messages game.
Proof.
  rewrite parse_link_Some. intros (f & ds & t & d & i & j & _ & _ & _ & _ & ->).
  cbn. by rewrite set_exit_ids, set_exit_descriptions.
Qed.

Lemma load_links_frame lines game game' :
  load_links lines game = Some game' →
  id <$> all_rooms game' = id <$> all_rooms game ∧
  description <$> all_rooms game' = description <$> all_rooms game ∧
  player game' = player game ∧
  game_should_close game' = game_should_close game ∧
  log_messages game' = log_messages game.
Proof.
  revert game. induction lines as [|line lines IH]; intros game;
    cbn [load_links].
  - by intros [= <-].
  - destruct (is_link_line line); [|by apply IH].
    destruct (parse_link line game) as [game1|] eqn:Hparse; [|done].
    cbn [mbind option_bind]. intros Hload.
    apply parse_link_frame in Hparse as (Hi & Hd & Hp & Hc & Hl).
    apply IH in Hload as (Hi' & Hd' & Hp' & Hc' & Hl').
    repeat split; congruence.
Qed.

Lemma load_links_find lines game game' x :
  load_links lines game = Some game' →
  find_room_by_id game' x = find_room_by_id game x.
Proof.
  intros H. apply find_room_by_id_ids.
  by apply load_links_frame in H as (? & _).
Qed.

Lemma load_links_num_rooms lines game game' :
  load_links lines game = Some game' → num_rooms game' = num_rooms game.
Proof.
  intros H. apply load_links_frame in H as (Hids & _).
  unfold num_rooms. by rewrite <- (length_fmap id), Hids, length_fmap.
Qed.

Lemma link_decl_Some line from_id dir to_id :
  link_decl line = Some (from_id, dir, to_id) ↔
  is_link_line line = true ∧
  ∃ dir_str, sscanf_link line = Some (from_id, dir_str, to_id) ∧
             direction_of_code dir_str = Some dir.
Proof.
  unfold link_decl. destruct (is_link_line line); [|by split; [|intros []]].
  destruct (sscanf_link line) as [[[f ds] t]|]; simpl.
  - destruct (direction_of_code ds) as [d|] eqn:Hd; simpl.
    + split; [intros [= <- <- <-]; eauto |].
      intros (_ & ds' & [= <- <- <-] & Hd'). congruence.
    + split; [done |]. intros (_ & ds' & [= <- <- <-] & Hd'). congruence.
  - split; [done |]. by intros (_ & ds' & [=] & _).
Qed.

(** A slot no link line of the text names keeps its exit. *)
Lemma load_links_untouched lines game game' from_id dir i :
  load_links lines game = Some game' →
  last_link lines from_id dir = None →
  find_room_by_id game from_id = Some i →
  exit_of game' i dir = exit_of game i dir.
Proof.
  revert game. induction lines as [|line lines IH]; intros game;
    cbn [load_links last_link].
  - by intros [= <-].
  - destruct (last_link lines from_id dir) as [t|] eqn:Hlast; [done|].
    destruct (is_link_line line) eqn:Hlink.
    + destruct (parse_link line game) as [game1|] eqn:Hparse; [|done].
      cbn [mbind option_bind]. intros Hload Hhead Hfind.
      pose proof (parse_link_frame _ _ _ Hparse) as (Hids & _).
      rewrite (IH game1 Hload eq_refl);
        [|by rewrite (find_room_by_id_ids game1 game)].
      apply parse_link_Some in Hparse
        as (f & ds & t & d & i' & j & Hscan & Hd & Hf & Ht & ->).
      rewrite exit_of_set_exit by (by eapply find_room_by_id_lt).
      case_decide as Hslot; [|done]. destruct Hslot as [-> ->].
      assert (link_decl line = Some (f, d, t)) as Hdecl
          by (apply link_decl_Some; eauto).
      rewrite Hdecl in Hhead. case_decide as Hne; [done|].
      destruct Hne. split; [|done]. by eapply find_room_by_id_inj.
    + intros Hload _ Hfind. by apply IH.
Qed.

(** The slot a link line names holds, after pass 2, the room of the
    last link line that names it. *)
Lemma load_links_last lines game game' from_id dir to_id :
  load_links lines game = Some game' →
  last_link lines from_id dir = Some to_id →
  ∃ from_room to_room,
    find_room_by_id game from_id = Some from_room ∧
    find_room_by_id game to_id = Some to_room ∧
    exit_of game' from_room dir = Some to_room.
Proof.
  revert game. induction lines as [|line lines IH]; intros game;
    cbn [load_links last_link]; [done|].
  destruct (last_link lines from_id dir) as [t|] eqn:Hlast.
  - intros Hload [= ->].
    destruct (is_link_line line); [|by apply IH].
    destruct (parse_link line game) as [game1|] eqn:Hparse; [|done].
    cbn [mbind option_bind] in Hload.
    apply parse_link_frame in Hparse as (Hids & _).
    destruct (IH game1 Hload eq_refl) as (i & j & Hi & Hj & Hexit).
    exists i, j. by rewrite <- !(find_room_by_id_ids game1 game).
  - intros Hload Hhead.
    destruct (link_decl line) as [[[f d] t]|] eqn:Hdecl; [|done].
    case_decide as Hslot; [|done].
    destruct Hslot as [-> ->]. injection Hhead as ->.
    apply link_decl_Some in Hdecl as (Hlink & ds & Hscan & Hd).
    rewrite Hlink in Hload.
    destruct (parse_link line game) as [game1|] eqn:Hparse; [|done].
    cbn [mbind option_bind] in Hload.
    pose proof (parse_link_frame _ _ _ Hparse) as (Hids & _).
    apply parse_link_Some in Hparse
      as (f' & ds' & t' & d' & i & j & Hscan' & Hd' & Hf & Ht & ->).
    rewrite Hscan in Hscan'. injection Hscan' as <- <- <-.
    rewrite Hd in Hd'. injection Hd' as <-.
    exists i, j. split; [done|]. split; [done|].
    rewrite (load_links_untouched lines _ game' from_id dir i Hload Hlast).
    + rewrite exit_of_set_exit by (by eapply find_room_by_id_lt).
      by rewrite decide_True.
    + by rewrite (find_room_by_id_ids _ game).
Qed.

Lemma link_line_ok_spec ids line :
  link_line_ok ids line = true ↔
  (is_link_line line = true →
   ∃ from_id dir to_id, link_decl line = Some (from_id, dir, to_id) ∧
                        from_id ∈ ids ∧ to_id ∈ ids).
Proof.
  unfold link_line_ok. destruct (is_link_line line) eqn:Hlink.
  - destruct (link_decl line) as [[[f d] t]|].
    + rewrite andb_true_iff, !bool_decide_eq_true. split.
      * intros [? ?] _. by exists f, d, t.
      * intros H. destruct (H eq_refl) as (f' & d' & t' & [= <- <- <-] & ?).
        done.
    + split; [done|]. intros H. by destruct (H eq_refl) as (? & ? & ? & ? & _).
  - split; [done | auto].
Qed.

(** Pass 2 succeeds exactly when every link line scans, names a
    direction and joins ids that pass 1 has found. *)
Lemma load_links_is_Some lines game :
  is_Some (load_links lines game) ↔
  forallb (link_line_ok (id <$> all_rooms game)) lines = true.
Proof.
  revert game. induction lines as [|line lines IH]; intros game;
    cbn [load_links forallb]; [by split; eauto|].
  rewrite andb_true_iff, link_line_ok_spec.
  destruct (is_link_line line) eqn:Hlink.
  - destruct (parse_link line game) as [game1|] eqn:Hparse;
      cbn [mbind option_bind].
    + pose proof (parse_link_frame _ _ _ Hparse) as (Hids & _).
      rewrite IH, Hids. split; [|tauto]. intros Hrest. split; [|done].
      intros _. apply parse_link_Some in Hparse
        as (f & ds & t & d & i & j & Hscan & Hd & Hf & Ht & _).
      exists f, d, t. split; [apply link_decl_Some; eauto|].
      split; apply find_room_by_id_is_Some; eauto.
    + split; [by intros [? ?]|]. intros [Hhead _].
      destruct (Hhead eq_refl) as (f & d & t & Hdecl & Hf & Ht).
      apply link_decl_Some in Hdecl as (_ & ds & Hscan & Hd).
      apply find_room_by_id_is_Some in Hf as [i Hf].
      apply find_room_by_id_is_Some in Ht as [j Ht].
      assert (is_Some (parse_link line game)) as [? ?]; [|congruence].
      eexists. apply parse_link_Some. by exists f, ds, t, d, i, j.
  - rewrite IH. split; [|tauto]. intros ?. split; [done | done].
Qed.

(** Pass 1 starts from no room, so no exit is set after it; pass 2
    stores pointers that [find_room_by_id] has returned.  So every exit
    of a loaded world resolves. *)
Lemma parse_link_exits_resolve line game game' :
  parse_link line game = Some game' →
  exits_resolve game → exits_resolve game'.
Proof.
  intros Hparse Hres.
  assert (num_rooms game' = num_rooms game) as Hnum.
  { apply parse_link_frame in Hparse as (Hids & _).
    unfold num_rooms. by rewrite <- (length_fmap id), Hids, length_fmap. }
  apply parse_link_Some in Hparse
    as (f & ds & t & d & i & j & _ & _ & Hf & Ht & ->).
  intros i' r' d' j' Hr' Hexit. rewrite Hnum.
  assert (exit_of (set_all_rooms game
                     (alter (λ r, set_exit r d (Some j)) i (all_rooms game)))
                  i' d' = Some j') as Hex.
  { unfold exit_of. by rewrite Hr'. }
  rewrite exit_of_set_exit in Hex by (by eapply find_room_by_id_lt).
  case_decide.
  - injection Hex as <-. by eapply find_room_by_id_lt.
  - unfold exit_of in Hex.
    destruct (all_rooms game !! i') as [r|] eqn:Hr; [|done].
    by eapply Hres.
Qed.

Lemma load_links_exits_resolve lines game game' :
  load_links lines game = Some game' →
  exits_resolve game → exits_resolve game'.
Proof.
  revert game. induction lines as [|line lines IH]; intros game;
    cbn [load_links]; [by intros [= <-]|].
  destruct (is_link_line line); [|by apply IH].
  destruct (parse_link line game) as [game1|] eqn:Hparse; [|done].
  cbn [mbind option_bind]. intros Hload Hres.
  eapply IH; [done|]. by eapply parse_link_exits_resolve.
Qed.

(** *** [load_world] *)

Lemma load_world_Some text game :
  load_world (Some text) = Some game ↔
  ∃ game1,
    load_rooms (map_lines text) empty_game = Some game1 ∧
    load_links (map_lines text) game1 = Some game.
Proof.
  unfold load_world; cbn [mbind option_bind].
  destruct (load_rooms _ _) as [game1|]; cbn [mbind option_bind].
  - split; [eauto|]. by intros (? & [= <-] & ?).
  - split; [done|]. by intros (? & [=] & _).
Qed.

(** The rooms of a loaded world are the declared ones, in file order,
    and there are at most [MAX_ROOMS] of them. *)
Lemma load_world_rooms text game :
  load_world (Some text) = Some game →
  id <$> all_rooms game = declared_ids (map_lines text) ∧
  description <$> all_rooms game = snd <$> declared_rooms (map_lines text) ∧
  num_rooms game = room_line_count (map_lines text) ∧
  (num_rooms game ≤ MAX_ROOMS)%nat.
Proof.
  rewrite load_world_Some. intros (game1 & Hrooms & Hlinks).
  pose proof (load_links_num_rooms _ _ _ Hlinks) as Hnum.
  apply load_links_frame in Hlinks as (-> & -> & _).
  apply load_rooms_Some in Hrooms as (-> & Hlen & _ & Hcount).
  unfold declared_ids, num_rooms in *; cbn in *.
  rewrite <- !list_fmap_compose.
  rewrite length_fmap in Hnum. rewrite Hnum, Hlen.
  repeat split; [done..|].
  destruct Hcount as [-> | ?]; unfold MAX_ROOMS in *; lia.
Qed.

Lemma load_world_is_Some text :
  is_Some (load_world (Some text)) ↔ well_formed_map (map_lines text) = true.
Proof.
  unfold well_formed_map. rewrite !andb_true_iff, bool_decide_eq_true.
  split.
  - intros [game Hload].
    pose proof (load_world_rooms _ _ Hload) as (Hids & _ & Hnum & Hmax).
    apply load_world_Some in Hload as (game1 & Hrooms & Hlinks).
    pose proof (load_links_frame _ _ _ Hlinks) as (Hids1 & _).
    apply load_rooms_Some in Hrooms as (_ & _ & Hok & _).
    split; [split; [done | lia]|].
    rewrite <- Hids, Hids1. apply load_links_is_Some. eauto.
  - intros [[Hok Hmax] Hlinks].
    destruct (load_rooms_succeeds (map_lines text) empty_game Hok)
      as [game1 Hrooms]; [cbn; lia|].
    assert (is_Some (load_links (map_lines text) game1)) as [game Hload].
    { apply load_links_is_Some.
      apply load_rooms_Some in Hrooms as (-> & _). cbn.
      rewrite <- list_fmap_compose. exact Hlinks. }
    exists game. apply load_world_Some. eauto.
Qed.

Lemma load_world_exits_resolve text game :
  load_world (Some text) = Some game → exits_resolve game.
Proof.
  rewrite load_world_Some. intros (game1 & Hrooms & Hlinks).
  eapply load_links_exits_resolve; [done|].
  apply load_rooms_Some in Hrooms as (-> & _).
  intros i r d j. cbn. rewrite list_lookup_fmap.
  destruct (declared_rooms _ !! i); [|done]. by intros [= <-].
Qed.

End LoaderFacts.

(** ** The world loader: the two passes, failures and capacity *)

Section LoaderTheorems.

Implicit Types (game : GameState) (line : string) (lines : list string).

Lemma last_link_None lines from_id dir :
  (∀ k line to_id, lines !! k = Some line →
                   link_decl line ≠ Some (from_id, dir, to_id)) →
  last_link lines from_id dir = None.
Proof.
  induction lines as [|line lines IH]; intros Hno; cbn [last_link]; [done|].
  rewrite IH by (intros k; apply (Hno (S k))).
  destruct (link_decl line) as [[[f d] t]|] eqn:Hdecl; [|done].
  case_decide as Hslot; [|done]. destruct Hslot as [-> ->].
  by destruct (Hno 0%nat line t).
Qed.

Lemma last_link_at lines p from_id dir to_id :
  link_at lines p from_id dir to_id →
  no_link_after lines p from_id dir →
  last_link lines from_id dir = Some to_id.
Proof.
  revert p. induction lines as [|line lines IH];
    intros p (l & Hl & Hdecl) Hno; [done|].
  cbn [last_link]. destruct p as [|p]; simpl in Hl.
  - injection Hl as ->.
    rewrite last_link_None; [by rewrite Hdecl, decide_True|].
    intros k l' t' Hk. apply (Hno (S k)); [lia | done].
  - rewrite (IH p); [done | by exists l |].
    intros k l' t Hk. apply (Hno (S k)). lia.
Qed.

(** A slot some line declares has a last declaration. *)
Lemma last_link_is_Some lines p from_id dir to_id :
  link_at lines p from_id dir to_id →
  is_Some (last_link lines from_id dir).
Proof.
  revert p. induction lines as [|line lines IH];
    intros p (l & Hl & Hdecl); [done|].
  cbn [last_link]. destruct p as [|p]; simpl in Hl.
  - injection Hl as ->. destruct (last_link lines from_id dir); [eauto|].
    rewrite Hdecl, decide_True; eauto.
  - destruct (IH p) as [t ->]; [by exists l | eauto].
Qed.

(** After a load, the exit of every slot that link lines name is the
    room of the last of them. *)
Lemma load_world_last_link text game from_id dir to_id :
  load_world (Some text) = Some game →
  last_link (map_lines text) from_id dir = Some to_id →
  ∃ from_room to_room,
    find_room_by_id game from_id = Some from_room ∧
    find_room_by_id game to_id = Some to_room ∧
    exit_of game from_room dir = Some to_room.
Proof.
  rewrite load_world_Some. intros (game1 & _ & Hlinks) Hlast.
  destruct (load_links_last _ _ _ _ _ _ Hlinks Hlast)
    as (i & j & Hi & Hj & Hexit).
  exists i, j. by rewrite !(load_links_find _ _ _ _ Hlinks).
Qed.

(** After a load, a slot that no link line names has no exit. *)
Lemma load_world_undeclared_exit text game from_id dir from_room :
  load_world (Some text) = Some game →
  last_link (map_lines text) from_id dir = None →
  find_room_by_id game from_id = Some from_room →
  exit_of game from_room dir = None.
Proof.
  rewrite load_world_Some. intros (game1 & Hrooms & Hlinks) Hlast Hfind.
  rewrite (load_links_find _ _ _ _ Hlinks) in Hfind.
  rewrite (load_links_untouched _ _ _ _ _ _ Hlinks Hlast Hfind).
  apply load_rooms_Some in Hrooms as (-> & _).
  unfold exit_of; cbn. rewrite list_lookup_fmap.
  by destruct (declared_rooms _ !! from_room).
Qed.

(** C1, as amended.  A well-formed map loads wherever its room lines
    stand, also after the link lines that name them; the exit that a
    link line declares is then the room of the last link line for the
    same room and direction, which is the line itself when no later
    line declares that exit again. *)
Theorem load_world_forward_reference text p from_id dir to_id :
  well_formed_map (map_lines text) = true →
  forward_reference (map_lines text) p from_id dir to_id →
  ∃ game from_room last_id last_room,
    load_world (Some text) = Some game ∧
    find_room_by_id game from_id = Some from_room ∧
    last_link (map_lines text) from_id dir = Some last_id ∧
    find_room_by_id game last_id = Some last_room ∧
    exit_of game from_room dir = Some last_room ∧
    (no_link_after (map_lines text) p from_id dir → last_id = to_id).
Proof.
  intros Hwf [Hlink _].
  apply load_world_is_Some in Hwf as [game Hload].
  destruct (last_link_is_Some _ _ _ _ _ Hlink) as [last_id Hlast].
  destruct (load_world_last_link _ _ _ _ _ Hload Hlast)
    as (i & j & Hi & Hj & Hexit).
  exists game, i, last_id, j. repeat split; try done.
  intros Hno. rewrite (last_link_at _ _ _ _ _ Hlink Hno) in Hlast.
  by injection Hlast.
Qed.

Lemma load_world_forward_reference_witness :
  well_formed_map (map_lines forward_map) = true ∧
  forward_reference (map_lines forward_map) 0 0 NORTH 1 ∧
  ∃ game from_room last_id last_room,
    load_world (Some forward_map) = Some game ∧
    find_room_by_id game 0 = Some from_room ∧
    last_link (map_lines forward_map) 0 NORTH = Some last_id ∧
    find_room_by_id game last_id = Some last_room ∧
    exit_of game from_room NORTH = Some last_room ∧
    (no_link_after (map_lines forward_map) 0 0 NORTH → last_id = 1).
Proof.
  assert (forward_reference (map_lines forward_map) 0 0 NORTH 1) as Hfwd.
  { split; [eexists; split; [vm_compute; reflexivity | vm_compute; reflexivity]|].
    exists 2%nat. split; [lia|]. right.
    eexists _, _. split; [vm_compute; reflexivity | vm_compute; reflexivity]. }
  split; [vm_compute; reflexivity|]. split; [exact Hfwd|].
  apply (load_world_forward_reference forward_map 0 0 NORTH 1);
    [vm_compute; reflexivity | exact Hfwd].
Defined.

(** The first link line of [overridden_map] names room 1, which is
    declared further down; the map is well formed and loads, and the
    north exit of room 0 is room 2, not room 1. *)
Lemma forward_link_overridden :
  well_formed_map (map_lines overridden_map) = true ∧
  forward_reference (map_lines overridden_map) 1 0 NORTH 1 ∧
  ∃ game,
    load_world (Some overridden_map) = Some game ∧
    find_room_by_id game 0 = Some 0%nat ∧
    find_room_by_id game 1 = Some 1%nat ∧
    exit_of game 0 NORTH = Some 2%nat ∧
    exit_of game 0 NORTH ≠ find_room_by_id game 1.
Proof.
  split; [vm_compute; reflexivity|]. split.
  - split; [eexists; split; [vm_compute; reflexivity | vm_compute; reflexivity]|].
    exists 3%nat. split; [lia|]. right.
    eexists _, _. split; [vm_compute; reflexivity | vm_compute; reflexivity].
  - eexists. split; [vm_compute; reflexivity|].
    split; [vm_compute; reflexivity|].
    split; [vm_compute; reflexivity|].
    split; [vm_compute; reflexivity|].
    vm_compute. discriminate.
Qed.

(** [duplicate_id_map] loads, both of its rooms have the id 1, and
    looking up the id of the second room gives the first. *)
Lemma duplicate_ids_are_loaded :
  ∃ game second,
    load_world (Some duplicate_id_map) = Some game ∧
    id <$> all_rooms game = [1; 1] ∧
    all_rooms game !! 1%nat = Some second ∧
    find_room_by_id game (id second) = Some 0%nat ∧
    ¬ NoDup (id <$> all_rooms game).
Proof.
  eexists _, _. split; [vm_compute; reflexivity|].
  split; [vm_compute; reflexivity|].
  split; [vm_compute; reflexivity|].
  split; [vm_compute; reflexivity|].
  intros Hnodup. apply NoDup_cons_1_1 in Hnodup. apply Hnodup.
  vm_compute. left.
Qed.

(** C2, as amended.  After a successful load, looking up the id of a
    loaded room gives the first loaded room with that id; when the
    room lines of the map declare pairwise distinct ids, the ids of
    the loaded rooms are pairwise distinct and the lookup gives the
    room itself. *)
Theorem find_room_by_id_loaded text game :
  load_world (Some text) = Some game →
  (∀ i r, all_rooms game !! i = Some r →
     ∃ j r', find_room_by_id game (id r) = Some j ∧ (j ≤ i)%nat ∧
             all_rooms game !! j = Some r' ∧ id r' = id r ∧
             ∀ k r'', (k < j)%nat → all_rooms game !! k = Some r'' →
                      id r'' ≠ id r) ∧
  (NoDup (declared_ids (map_lines text)) →
     NoDup (id <$> all_rooms game) ∧
     ∀ i r, all_rooms game !! i = Some r →
            find_room_by_id game (id r) = Some i).
Proof.
  intros Hload.
  assert (∀ i r, all_rooms game !! i = Some r →
            ∃ j r', find_room_by_id game (id r) = Some j ∧ (j ≤ i)%nat ∧
                    all_rooms game !! j = Some r' ∧ id r' = id r ∧
                    ∀ k r'', (k < j)%nat → all_rooms game !! k = Some r'' →
                             id r'' ≠ id r) as Hfirst.
  { intros i r Hr.
    destruct (find_room_by_id game (id r)) as [j|] eqn:Hfind.
    - apply find_room_by_id_Some in Hfind as (r' & Hr' & Hid & Hmin).
      exists j, r'. repeat split; try done.
      + destruct (decide (j ≤ i)%nat) as [|Hgt]; [done|].
        destruct (Hmin i r Hr); [lia | done].
      + intros k r'' Hk Hr''. by eapply Hmin.
    - apply find_room_by_id_None in Hfind. destruct Hfind.
      apply list_elem_of_fmap. exists r.
      split; [done | by eapply list_elem_of_lookup_2]. }
  split; [exact Hfirst|]. intros Hnodup.
  apply load_world_rooms in Hload as (Hids & _).
  rewrite <- Hids in Hnodup. split; [done|].
  intros i r Hr. destruct (Hfirst i r Hr) as (j & r' & -> & _ & Hr' & Hid & _).
  f_equal. eapply NoDup_lookup; [exact Hnodup | |].
  - by rewrite list_lookup_fmap, Hr'.
  - by rewrite list_lookup_fmap, Hr, Hid.
Qed.

Lemma find_room_by_id_loaded_witness :
  ∃ game,
    load_world (Some forward_map) = Some game ∧
    NoDup (declared_ids (map_lines forward_map)) ∧
    NoDup (id <$> all_rooms game) ∧
    ∀ i r, all_rooms game !! i = Some r →
           find_room_by_id game (id r) = Some i.
Proof.
  eexists. split; [vm_compute; reflexivity|].
  assert (NoDup (declared_ids (map_lines forward_map))) as Hnodup.
  { apply (bool_decide_unpack _). vm_compute. exact I. }
  split; [exact Hnodup|].
  refine (proj2 (find_room_by_id_loaded forward_map _ _) Hnodup).
  vm_compute; reflexivity.
Defined.

(** C3.  [load_world] returns no world when some line of the map is a
    room line that does not scan, a link line that does not scan or
    whose direction is none of n, s, e, w, or a link line one of whose
    ids no room line declares. *)
Theorem load_world_rejects text line :
  line ∈ map_lines text →
  unscanned_room_line line ∨ unscanned_link_line line ∨
  dangling_link_line (declared_ids (map_lines text)) line →
  load_world (Some text) = None.
Proof.
  intros Hin Hbad.
  destruct (load_world (Some text)) as [game|] eqn:Hload; [|done].
  exfalso.
  assert (is_Some (load_world (Some text))) as Hwf by (rewrite Hload; eauto).
  apply load_world_is_Some in Hwf. unfold well_formed_map in Hwf.
  rewrite !andb_true_iff, !forallb_forall in Hwf.
  destruct Hwf as [[Hrooms _] Hlinks].
  apply list_elem_of_In in Hin.
  specialize (Hrooms line Hin). specialize (Hlinks line Hin).
  unfold room_line_ok in Hrooms. rewrite link_line_ok_spec in Hlinks.
  destruct Hbad as [[Hroom Hscan] | [[Hlink Hscan] | [Hlink Hdangling]]].
  - rewrite Hroom, Hscan in Hrooms.
    apply bool_decide_eq_true in Hrooms. by destruct Hrooms.
  - destruct (Hlinks Hlink) as (f & d & t & Hdecl & _).
    apply link_decl_Some in Hdecl as (_ & ds & Hscan' & Hd).
    destruct Hscan as [Hscan | (f' & ds' & t' & Hscan & Hd')]; congruence.
  - destruct (Hlinks Hlink) as (f & d & t & Hdecl & Hf & Ht).
    apply link_decl_Some in Hdecl as (_ & ds & Hscan' & _).
    destruct Hdangling as (f' & ds' & t' & Hscan & Hnot).
    rewrite Hscan' in Hscan. injection Hscan as <- <- <-. tauto.
Qed.

Lemma load_world_rejects_witness :
  "link 0 n 7" ∈ map_lines dangling_map ∧
  dangling_link_line (declared_ids (map_lines dangling_map)) "link 0 n 7" ∧
  load_world (Some dangling_map) = None.
Proof.
  assert ("link 0 n 7" ∈ map_lines dangling_map) as Hin.
  { apply (bool_decide_unpack _). vm_compute. exact I. }
  assert (dangling_link_line (declared_ids (map_lines dangling_map))
                             "link 0 n 7") as Hbad.
  { split; [vm_compute; reflexivity|]. exists 0, "n"%string, 7.
    split; [vm_compute; reflexivity|]. right.
    apply (bool_decide_unpack _). vm_compute. exact I. }
  split; [exact Hin|]. split; [exact Hbad|].
  apply (load_world_rejects dangling_map "link 0 n 7" Hin). auto.
Defined.

(** C8.  A link line that [parse_link] accepts sets the exit of its
    from-room in its direction to its to-room and no other exit: the
    other exits of the from-room, the exits of every other room and,
    in every other direction, those of the to-room are as before, and
    so is the rest of the game state. *)
Theorem parse_link_sets_one_exit line game game' :
  parse_link line game = Some game' →
  ∃ from_id dir_str to_id dir from_room to_room,
    sscanf_link line = Some (from_id, dir_str, to_id) ∧
    direction_of_code dir_str = Some dir ∧
    find_room_by_id game from_id = Some from_room ∧
    find_room_by_id game to_id = Some to_room ∧
    exit_of game' from_room dir = Some to_room ∧
    (∀ d, d ≠ dir → exit_of game' from_room d = exit_of game from_room d) ∧
    (∀ i d, i ≠ from_room → exit_of game' i d = exit_of game i d) ∧
    (∀ d, d ≠ dir → exit_of game' to_room d = exit_of game to_room d) ∧
    id <$> all_rooms game' = id <$> all_rooms game ∧
    description <$> all_rooms game' = description <$> all_rooms game ∧
    player game' = player game ∧
    game_should_close game' = game_should_close game ∧
    log_messages game' = log_messages game.
Proof.
  intros Hparse.
  pose proof (parse_link_frame _ _ _ Hparse) as Hframe.
  apply parse_link_Some in Hparse
    as (f & ds & t & d & i & j & Hscan & Hd & Hf & Ht & ->).
  pose proof (find_room_by_id_lt _ _ _ Hf) as Hlt.
  exists f, ds, t, d, i, j. repeat split; try tauto.
  - rewrite exit_of_set_exit by done. by rewrite decide_True.
  - intros d' Hne. rewrite exit_of_set_exit by done.
    rewrite decide_False; [done | tauto].
  - intros i' d' Hne. rewrite exit_of_set_exit by done.
    rewrite decide_False; [done | tauto].
  - intros d' Hne. rewrite exit_of_set_exit by done.
    rewrite decide_False; [done | tauto].
Qed.

Lemma parse_link_sets_one_exit_witness :
  ∃ game',
    parse_link "link 0 n 1" two_rooms = Some game' ∧
    exit_of game' 0 NORTH = Some 1%nat ∧
    exit_of game' 1 SOUTH = exit_of two_rooms 1 SOUTH ∧
    exit_of game' 0 EAST = exit_of two_rooms 0 EAST.
Proof.
  eexists. split; [vm_compute; reflexivity|].
  destruct (parse_link_sets_one_exit "link 0 n 1" two_rooms _ eq_refl)
    as (f & ds & t & d & i & j & Hscan & Hd & Hf & Ht & Hset & Hfrom & Hother
        & Hto & _).
  vm_compute in Hscan. injection Hscan as <- <- <-.
  vm_compute in Hd. injection Hd as <-.
  vm_compute in Hf. injection Hf as <-.
  vm_compute in Ht. injection Ht as <-.
  split; [exact Hset|]. split; [by apply Hto | by apply Hfrom].
Defined.

(** C9.  [parse_room] refuses a room once [MAX_ROOMS] rooms are
    stored; a map with more than [MAX_ROOMS] room lines does not load,
    and a loaded world has as many rooms as the map has room lines,
    which is at most [MAX_ROOMS]. *)
Theorem load_world_room_capacity text :
  (∀ line game,
     (MAX_ROOMS ≤ num_rooms game)%nat → parse_room line game = None) ∧
  ((MAX_ROOMS < room_line_count (map_lines text))%nat →
   load_world (Some text) = None) ∧
  (∀ game, load_world (Some text) = Some game →
           num_rooms game = room_line_count (map_lines text) ∧
           (num_rooms game ≤ MAX_ROOMS)%nat).
Proof.
  split; [apply parse_room_full|]. split.
  - intros Hmany.
    destruct (load_world (Some text)) as [game|] eqn:Hload; [|done].
    apply load_world_rooms in Hload as (_ & _ & Hnum & Hmax). lia.
  - intros game Hload.
    by apply load_world_rooms in Hload as (_ & _ & Hnum & Hmax).
Qed.

Lemma load_world_room_capacity_witness :
  (MAX_ROOMS < room_line_count (map_lines crowded_map))%nat ∧
  load_world (Some crowded_map) = None.
Proof.
  assert (MAX_ROOMS < room_line_count (map_lines crowded_map))%nat as Hmany.
  { vm_compute. lia. }
  split; [exact Hmany|].
  exact (proj1 (proj2 (load_world_room_capacity crowded_map)) Hmany).
Defined.

(** C10.  When two link lines of a well-formed map name the same room
    and direction, the map loads and the exit is the room of the line
    that comes last in the file. *)
Theorem load_world_duplicate_links text p q from_id dir to1 to2 :
  well_formed_map (map_lines text) = true →
  (p < q)%nat →
  link_at (map_lines text) p from_id dir to1 →
  link_at (map_lines text) q from_id dir to2 →
  no_link_after (map_lines text) q from_id dir →
  ∃ game from_room to_room,
    load_world (Some text) = Some game ∧
    find_room_by_id game from_id = Some from_room ∧
    find_room_by_id game to2 = Some to_room ∧
    exit_of game from_room dir = Some to_room.
Proof.
  intros Hwf _ _ Hlink Hno.
  apply load_world_is_Some in Hwf as [game Hload].
  pose proof (last_link_at _ _ _ _ _ Hlink Hno) as Hlast.
  destruct (load_world_last_link _ _ _ _ _ Hload Hlast) as (i & j & ?).
  by exists game, i, j.
Qed.

Lemma load_world_duplicate_links_witness :
  well_formed_map (map_lines overridden_map) = true ∧
  link_at (map_lines overridden_map) 1 0 NORTH 1 ∧
  link_at (map_lines overridden_map) 2 0 NORTH 2 ∧
  no_link_after (map_lines overridden_map) 2 0 NORTH ∧
  ∃ game from_room to_room,
    load_world (Some overridden_map) = Some game ∧
    find_room_by_id game 0 = Some from_room ∧
    find_room_by_id game 2 = Some to_room ∧
    exit_of game from_room NORTH = Some to_room.
Proof.
  assert (well_formed_map (map_lines overridden_map) = true) as Hwf
      by (vm_compute; reflexivity).
  assert (link_at (map_lines overridden_map) 1 0 NORTH 1) as Hfirst.
  { eexists. split; [vm_compute; reflexivity | vm_compute; reflexivity]. }
  assert (link_at (map_lines overridden_map) 2 0 NORTH 2) as Hsecond.
  { eexists. split; [vm_compute; reflexivity | vm_compute; reflexivity]. }
  assert (no_link_after (map_lines overridden_map) 2 0 NORTH) as Hlast.
  { intros k line t Hk Hline.
    destruct k as [|[|[|[|[|k]]]]]; try lia;
      vm_compute in Hline; [| |done];
      injection Hline as <-; vm_compute; discriminate. }
  split; [exact Hwf|]. split; [exact Hfirst|]. split; [exact Hsecond|].
  split; [exact Hlast|].
  apply (load_world_duplicate_links overridden_map 1 2 0 NORTH 1 2);
    [exact Hwf | lia | exact Hfirst | exact Hsecond | exact Hlast].
Defined.

End LoaderTheorems.

(** ** The transcript log and the command handlers *)

Section SessionFacts.

Implicit Types (game : GameState) (message word : string).

Lemma ui_log_messages game message :
  log_messages (ui_log game message) = logged (log_messages game) message.
Proof. done. Qed.

Lemma logged_length log message :
  (length log ≤ MAX_LOG_MESSAGES)%nat →
  (length (logged log message) ≤ MAX_LOG_MESSAGES)%nat.
Proof.
  intros Hlen. unfold logged. rewrite length_app; cbn [length].
  case_bool_decide.
  - destruct log; cbn in *; unfold MAX_LOG_MESSAGES in *; lia.
  - lia.
Qed.

Lemma ui_log_ok game message : game_ok game → game_ok (ui_log game message).
Proof.
  intros (Hexits & Hcur & Hlog). split; [done|]. split; [done|].
  by apply logged_length.
Qed.

Lemma handle_look_Some game argument i room :
  current_room (player game) = Some i →
  all_rooms game !! i = Some room →
  handle_look game argument
  = Some (ui_log (ui_log game (description room)) (exits_message room)).
Proof.
  intros Hi Hroom. unfold handle_look, exits_message.
  rewrite Hi; cbn [mbind option_bind]. rewrite Hroom; cbn [mbind option_bind].
  by destruct (foldl _ _ _) as [exits_str []].
Qed.

(** The last two messages after a look are the description of the room
    and its exits line. *)
Lemma logged_twice log m1 m2 :
  ∃ older, logged (logged log m1) m2 = older ++ [m1; m2].
Proof.
  unfold logged at 1. case_bool_decide as Hfull.
  - unfold logged in *. rewrite length_app in Hfull; cbn in Hfull.
    case_bool_decide.
    + destruct log as [|x [|y log]]; cbn in *;
        [unfold MAX_LOG_MESSAGES in *; lia.. |].
      exists log. by rewrite <- app_assoc.
    + destruct log as [|x log]; cbn in *;
        [unfold MAX_LOG_MESSAGES in *; lia |].
      exists log. by rewrite <- app_assoc.
  - exists (if bool_decide (MAX_LOG_MESSAGES ≤ length log)%nat
            then tail log else log).
    unfold logged. by rewrite <- app_assoc.
Qed.

Lemma direction_of_word_Some word dir :
  direction_of_word word = Some dir ↔
  word = direction_to_string dir ∨
  word = String.substring 0 1 (direction_to_string dir).
Proof.
  unfold direction_of_word, streq.
  repeat
    match goal with
    | |- context [String.eqb word ?w] =>
        destruct (String.eqb_spec word w) as [?|?];
        [ subst word; cbn [orb]; split;
          [ intros [= <-]; cbn; auto
          | intros [H | H]; destruct dir; cbn in H; done ]
        | cbn [orb] ]
    end.
  split; [done|]. intros [H | H]; destruct dir; cbn in H; done.
Qed.

(** *** The handlers keep the invariants *)

Lemma game_ok_current game :
  game_ok game →
  ∃ i room, current_room (player game) = Some i ∧
            all_rooms game !! i = Some room.
Proof.
  intros (_ & (i & Hi & Hlt) & _).
  destruct (lookup_lt_is_Some_2 _ _ Hlt) as [room Hroom]. eauto.
Qed.

Lemma handle_quit_ok game argument :
  game_ok game →
  ∃ game', handle_quit game argument = Some game' ∧ game_ok game' ∧
           game_should_close game' = true.
Proof. intros Hok. by eexists. Qed.

Lemma handle_look_ok game argument :
  game_ok game →
  ∃ game', handle_look game argument = Some game' ∧ game_ok game' ∧
           game_should_close game' = game_should_close game.
Proof.
  intros Hok. destruct (game_ok_current _ Hok) as (i & room & Hi & Hroom).
  eexists. split; [by eapply handle_look_Some|].
  split; [by do 2 apply ui_log_ok | done].
Qed.

Lemma handle_help_ok game argument :
  game_ok game →
  ∃ game', handle_help game argument = Some game' ∧ game_ok game' ∧
           game_should_close game' = game_should_close game.
Proof.
  intros Hok. eexists. split; [done|].
  split; [by do 5 apply ui_log_ok | done].
Qed.

Lemma handle_go_ok game argument :
  game_ok game →
  ∃ game', handle_go game argument = Some game' ∧ game_ok game' ∧
           game_should_close game' = game_should_close game.
Proof.
  intros Hok. unfold handle_go.
  destruct argument as [word|];
    [|eexists; split; [done|]; split; [by apply ui_log_ok | done]].
  destruct (direction_of_word word) as [dir|];
    [|eexists; split; [done|]; split; [by apply ui_log_ok | done]].
  destruct (game_ok_current _ Hok) as (i & room & Hi & Hroom).
  rewrite Hi; cbn [mbind option_bind]. rewrite Hroom; cbn [mbind option_bind].
  destruct (exits room dir) as [next|] eqn:Hexit;
    [|eexists; split; [done|]; split; [by apply ui_log_ok | done]].
  apply (handle_look_ok (set_current_room game (Some next)) None).
  destruct Hok as (Hexits & _ & Hlog). split; [done|]. split; [|done].
  exists next. split; [done|]. by eapply Hexits.
Qed.

Lemma is_direction_word_not_quit verb :
  is_direction_word verb = true →
  streq verb "quit" || streq verb "exit" = false.
Proof.
  unfold is_direction_word, streq. rewrite !orb_true_iff, !String.eqb_eq.
  intros H. repeat destruct H as [H | H]; by subst verb.
Qed.

(** Every input line is dispatched to a state that keeps the
    invariants, and only a quit command sets the flag. *)
Lemma parse_and_execute_command_ok game input :
  game_ok game →
  ∃ game',
    parse_and_execute_command game input = Some game' ∧ game_ok game' ∧
    game_should_close game'
    = game_should_close game || is_quit_command input.
Proof.
  intros Hok. unfold parse_and_execute_command, is_quit_command.
  destruct (strtok (lowercase input)) as [[verb rest]|];
    [|exists game; by rewrite orb_false_r].
  destruct (is_direction_word verb) eqn:Hdir.
  - rewrite (is_direction_word_not_quit _ Hdir), orb_false_r.
    apply handle_go_ok, Hok.
  - cbn [lookup_command command_table command handler].
    destruct (streq verb "quit"); cbn [handler orb];
      [destruct (handle_quit_ok game (fst <$> strtok rest) Hok)
         as (game' & Hq & ? & Hc); exists game';
       by rewrite Hc, orb_true_r|].
    destruct (streq verb "exit"); cbn [handler orb];
      [destruct (handle_quit_ok game (fst <$> strtok rest) Hok)
         as (game' & Hq & ? & Hc); exists game';
       by rewrite Hc, orb_true_r|].
    rewrite orb_false_r.
    repeat
      match goal with
      | |- context [if streq verb ?w then _ else _] =>
          destruct (streq verb w); cbn [handler];
          [ first [ apply handle_look_ok, Hok | apply handle_go_ok, Hok
                  | apply handle_help_ok, Hok ] |]
      end.
    eexists. split; [done|]. split; [by apply ui_log_ok | done].
Qed.

(** *** The game loop *)

Lemma ui_draw_ok game : game_ok game → ui_draw game = Some game.
Proof.
  intros Hok. destruct (game_ok_current _ Hok) as (i & room & Hi & Hroom).
  unfold ui_draw. rewrite Hi; cbn [mbind option_bind]. by rewrite Hroom.
Qed.

Lemma game_loop_closed fuel game input :
  game_should_close game = true →
  game_loop fuel game input = Returned game input.
Proof. intros H. destruct fuel; simpl; by rewrite H. Qed.

Lemma game_loop_step fuel game game' line input :
  game_ok game → game_should_close game = false →
  parse_and_execute_command game line = Some game' →
  game_loop (S fuel) game (line :: input) = game_loop fuel game' input.
Proof.
  intros Hok Hopen Hcmd. cbn [game_loop].
  by rewrite Hopen, (ui_draw_ok _ Hok); cbn [ui_get_input]; rewrite Hcmd.
Qed.

(** At the end of the input the loop goes on with empty lines. *)
Lemma game_loop_end_of_input fuel game :
  game_ok game → game_should_close game = false →
  game_loop (S fuel) game [] = game_loop fuel game [].
Proof.
  intros Hok Hopen. cbn [game_loop].
  by rewrite Hopen, (ui_draw_ok _ Hok).
Qed.

(** Without a quit command the loop never returns, whatever the fuel. *)
Lemma game_loop_no_quit fuel game input :
  game_ok game → game_should_close game = false →
  Forall (λ line, is_quit_command line = false) input →
  game_loop fuel game input = StillRunning.
Proof.
  revert game input. induction fuel as [|fuel IH]; intros game input Hok Hopen Hno.
  - simpl. by rewrite Hopen.
  - destruct input as [|line input].
    + rewrite game_loop_end_of_input by done. by apply IH.
    + apply Forall_cons in Hno as [Hline Hno].
      destruct (parse_and_execute_command_ok game line Hok)
        as (game' & Hcmd & Hok' & Hflag).
      rewrite (game_loop_step _ _ game') by done.
      apply IH; [done | | done]. by rewrite Hflag, Hopen, Hline.
Qed.

(** With a quit command the loop returns right after it. *)
Lemma game_loop_quit game before quit_line unread :
  game_ok game → game_should_close game = false →
  Forall (λ line, is_quit_command line = false) before →
  is_quit_command quit_line = true →
  ∃ game',
    run_commands (before ++ [quit_line]) game = Some game' ∧
    game_should_close game' = true ∧
    ∀ fuel, (length before < fuel)%nat →
      game_loop fuel game (before ++ quit_line :: unread)
      = Returned game' unread.
Proof.
  revert game. induction before as [|line before IH];
    intros game Hok Hopen Hno Hquit.
  - destruct (parse_and_execute_command_ok game quit_line Hok)
      as (game' & Hcmd & Hok' & Hflag).
    rewrite Hopen, Hquit in Hflag. exists game'.
    split; [by cbn; rewrite Hcmd|]. split; [done|].
    intros [|fuel] Hfuel; [cbn in Hfuel; lia|]. cbn [app].
    rewrite (game_loop_step _ _ game') by done. by apply game_loop_closed.
  - apply Forall_cons in Hno as [Hline Hno].
    destruct (parse_and_execute_command_ok game line Hok)
      as (game1 & Hcmd & Hok1 & Hflag).
    rewrite Hopen, Hline in Hflag.
    destruct (IH game1 Hok1 Hflag Hno Hquit) as (game' & Hrun & Hclosed & Hloop).
    exists game'. split; [by cbn; rewrite Hcmd|]. split; [done|].
    intros [|fuel] Hfuel; [cbn in Hfuel; lia|].
    rewrite <- app_comm_cons, (game_loop_step _ _ game1) by done.
    apply Hloop. cbn in Hfuel. lia.
Qed.

(** [main] hands a game that keeps the invariants to [game_loop]. *)
Lemma start_game_ok file game :
  start_game file = Some game → game_ok game ∧ game_should_close game = false.
Proof.
  unfold start_game. destruct file as [text|]; [|done].
  destruct (load_world (Some text)) as [game0|] eqn:Hload; [|done].
  cbn [mbind option_bind].
  destruct (find_room_by_id game0 0) as [start|] eqn:Hstart; [|done].
  cbn [mbind option_bind]. intros Hlook.
  assert (game_should_close game0 = false ∧ log_messages game0 = [])
    as [Hclosed Hlog].
  { apply load_world_Some in Hload as (game1 & Hrooms & Hlinks).
    apply load_links_frame in Hlinks as (_ & _ & _ & -> & ->).
    by apply load_rooms_Some in Hrooms as (-> & _). }
  match type of Hlook with
  | handle_look ?g None = _ =>
      destruct (handle_look_ok g None) as (game' & Hlook' & Hok & Hflag)
  end.
  - apply ui_log_ok. split; [exact (load_world_exits_resolve _ _ Hload)|].
    split; [exists start; split;
            [done | exact (find_room_by_id_lt _ _ _ Hstart)]|].
    unfold log_count, set_current_room; cbn. rewrite Hlog. cbn.
    unfold MAX_LOG_MESSAGES. lia.
  - rewrite Hlook in Hlook'. injection Hlook' as <-.
    split; [done|]. by rewrite Hflag.
Qed.

End SessionFacts.

(** ** The session: the log, movement and the end of the game *)

Section SessionTheorems.

Implicit Types (game : GameState) (message word : string).

(** C7.  A log of at most [MAX_LOG_MESSAGES] = 10 messages has at most
    that many after [ui_log]; when it is full its oldest message, and
    no other, is dropped before the new one is appended, and otherwise
    the new message is appended to all of them. *)
Theorem ui_log_bounded game message :
  (log_count game ≤ MAX_LOG_MESSAGES)%nat →
  MAX_LOG_MESSAGES = 10%nat ∧
  (log_count (ui_log game message) ≤ MAX_LOG_MESSAGES)%nat ∧
  (log_count game = MAX_LOG_MESSAGES →
   ∃ oldest kept,
     log_messages game = oldest :: kept ∧
     log_messages (ui_log game message) = kept ++ [message]) ∧
  ((log_count game < MAX_LOG_MESSAGES)%nat →
   log_messages (ui_log game message) = log_messages game ++ [message]).
Proof.
  intros Hlen. split; [done|]. split; [by apply logged_length|].
  rewrite ui_log_messages. unfold logged, log_count in *. split.
  - intros Hfull. rewrite bool_decide_eq_true_2 by lia.
    destruct (log_messages game) as [|oldest kept]; [done|]. eauto.
  - intros Hroom. by rewrite bool_decide_eq_false_2 by lia.
Qed.

Lemma ui_log_bounded_witness :
  (log_count full_log_game ≤ MAX_LOG_MESSAGES)%nat ∧
  log_count full_log_game = MAX_LOG_MESSAGES ∧
  ∃ oldest kept,
    log_messages full_log_game = oldest :: kept ∧
    log_messages (ui_log full_log_game "new") = kept ++ ["new"].
Proof.
  assert (log_count full_log_game ≤ MAX_LOG_MESSAGES)%nat as Hlen.
  { vm_compute. lia. }
  split; [exact Hlen|]. split; [reflexivity|].
  apply (ui_log_bounded full_log_game "new" Hlen). reflexivity.
Defined.

Lemma go_command_dispatch game dir :
  parse_and_execute_command game ("go " +:+ direction_to_string dir)
  = handle_go game (Some (direction_to_string dir)) ∧
  parse_and_execute_command game (direction_to_string dir)
  = handle_go game (Some (direction_to_string dir)).
Proof. by destruct dir. Qed.

(** C5.  When the argument of [handle_go] names a direction in which
    the current room has an exit, the player's current room becomes
    the room of that exit and the result is that of a look from there:
    the description of the new room and its exits line are the last
    two messages of the log.  Nothing else changes. *)
Theorem handle_go_moves game word dir i room next dest :
  direction_of_word word = Some dir →
  current_room (player game) = Some i →
  all_rooms game !! i = Some room →
  exits room dir = Some next →
  all_rooms game !! next = Some dest →
  ∃ game',
    handle_go game (Some word) = Some game' ∧
    current_room (player game') = Some next ∧
    handle_look (set_current_room game (Some next)) None = Some game' ∧
    log_messages game'
    = logged (logged (log_messages game) (description dest))
             (exits_message dest) ∧
    (∃ older,
       log_messages game' = older ++ [description dest; exits_message dest]) ∧
    all_rooms game' = all_rooms game ∧
    game_should_close game' = game_should_close game.
Proof.
  intros Hdir Hi Hroom Hexit Hdest.
  pose proof (handle_look_Some (set_current_room game (Some next)) None
                next dest eq_refl Hdest) as Hlook.
  eexists. split.
  - unfold handle_go. rewrite Hdir, Hi; cbn [mbind option_bind].
    rewrite Hroom; cbn [mbind option_bind]. rewrite Hexit. exact Hlook.
  - split; [done|]. split; [exact Hlook|]. split; [done|].
    split; [apply logged_twice | done].
Qed.

Lemma handle_go_moves_witness :
  ∃ game',
    handle_go in_library (Some "north"%string) = Some game' ∧
    current_room (player game') = Some 1%nat ∧
    log_messages game' = ["Library"; "Cavern"; "Exits: south "]%string.
Proof.
  destruct (handle_go_moves in_library "north" NORTH 0 library 1 cavern
              eq_refl eq_refl eq_refl eq_refl eq_refl)
    as (game' & Hgo & Hcur & _ & Hlog & _).
  exists game'. split; [exact Hgo|]. split; [exact Hcur|].
  rewrite Hlog. vm_compute. reflexivity.
Defined.

(** C6.  When [handle_go] has no argument, an argument that names no
    direction, or a direction in which the current room has no exit,
    it logs the message of that case and changes nothing else: the
    player stays in the current room and the game is not closed. *)
Theorem handle_go_refuses game argument message :
  go_refused game argument message →
  ∃ game',
    handle_go game argument = Some game' ∧
    game' = ui_log game message ∧
    player game' = player game ∧
    game_should_close game' = game_should_close game ∧
    all_rooms game' = all_rooms game ∧
    log_messages game' = logged (log_messages game) message.
Proof.
  intros Hrefused. exists (ui_log game message).
  split; [|done]. unfold handle_go.
  destruct Hrefused as [|word Hword|word dir i room Hword Hi Hroom Hexit].
  - done.
  - by rewrite Hword.
  - rewrite Hword, Hi; cbn [mbind option_bind].
    rewrite Hroom; cbn [mbind option_bind]. by rewrite Hexit.
Qed.

Lemma handle_go_refuses_witness :
  go_refused in_library (Some "east"%string) "You can't go that way." ∧
  ∃ game',
    handle_go in_library (Some "east"%string) = Some game' ∧
    player game' = player in_library ∧
    game_should_close game' = false ∧
    log_messages game' = ["Library"; "You can't go that way."]%string.
Proof.
  assert (go_refused in_library (Some "east"%string)
                     "You can't go that way.") as Hrefused.
  { by apply (go_no_exit in_library "east" EAST 0 library). }
  split; [exact Hrefused|].
  destruct (handle_go_refuses _ _ _ Hrefused)
    as (game' & Hgo & _ & Hplayer & Hclose & _ & Hlog).
  exists game'. split; [exact Hgo|]. split; [exact Hplayer|].
  split; [exact Hclose | exact Hlog].
Defined.

(** After the two lines of input are used up, the game started on
    [forward_map] is still in its loop, whatever the number of
    iterations: the end of the input does not stop it. *)
Lemma game_loop_runs_past_end_of_input :
  ∃ game,
    start_game (Some forward_map) = Some game ∧
    ¬ ∃ fuel game' unread,
        game_loop fuel game ["look"; "go north"]%string
        = Returned game' unread.
Proof.
  eexists. split; [vm_compute; reflexivity|].
  intros (fuel & game' & unread & Hloop).
  rewrite game_loop_no_quit in Hloop; [done | | |].
  - apply (start_game_ok (Some forward_map)). vm_compute; reflexivity.
  - vm_compute; reflexivity.
  - repeat constructor.
Qed.

(** C4, as amended.  From a running game, when a line of the input is
    a quit or exit command, the loop returns once the lines before it
    and the command itself have been dispatched: the flag is set and
    the later lines are left unread.  When no line is a quit or exit
    command the loop does not return, whatever the number of
    iterations; the end of the input is not looked at. *)
Theorem game_loop_stops_on_quit_only game inputs :
  game_ok game → game_should_close game = false →
  (∀ before quit_line unread,
     inputs = before ++ quit_line :: unread →
     Forall (λ line, is_quit_command line = false) before →
     is_quit_command quit_line = true →
     ∃ game',
       run_commands (before ++ [quit_line]) game = Some game' ∧
       game_should_close game' = true ∧
       ∀ fuel, (length before < fuel)%nat →
               game_loop fuel game inputs = Returned game' unread) ∧
  (Forall (λ line, is_quit_command line = false) inputs →
   ∀ fuel, game_loop fuel game inputs = StillRunning).
Proof.
  intros Hok Hopen. split.
  - intros before quit_line unread -> Hno Hquit.
    by apply game_loop_quit.
  - intros Hno fuel. by apply game_loop_no_quit.
Qed.

Lemma game_loop_stops_on_quit_only_witness :
  ∃ game game',
    start_game (Some forward_map) = Some game ∧
    game_should_close game' = true ∧
    game_loop 2 game ["look"; "QUIT"; "go north"]%string
    = Returned game' ["go north"%string].
Proof.
  eexists. 
  assert (start_game (Some forward_map) = Some _) as Hstart
      by (vm_compute; reflexivity).
  destruct (start_game_ok _ _ Hstart) as [Hok Hopen].
  destruct (proj1 (game_loop_stops_on_quit_only _
                     ["look"; "QUIT"; "go north"]%string Hok Hopen)
              ["look"%string] "QUIT"%string ["go north"%string] eq_refl)
    as (game' & _ & Hclosed & Hloop).
  - repeat constructor.
  - vm_compute; reflexivity.
  - exists game'. split; [exact Hstart|]. split; [exact Hclosed|].
    apply Hloop. cbn. lia.
Defined.

(** A whole session on [small_map]: the game starts in room 0 with its
    description and its north exit in the log; [go north] moves the
    player to room 1 and logs its description; [quit] ends the loop. *)
Example small_map_session :
  ∃ game game' game'',
    start_game (Some small_map) = Some game ∧
    current_room (player game) = find_room_by_id game 0 ∧
    log_messages game
    = ["Welcome to the Awesome Text Adventure! Type 'help' for commands.";
       "A"; "Exits: north "]%string ∧
    parse_and_execute_command game "go north" = Some game' ∧
    current_room (player game') = find_room_by_id game' 1 ∧
    log_messages game'
    = ["Welcome to the Awesome Text Adventure! Type 'help' for commands.";
       "A"; "Exits: north "; "B"; "There are no obvious exits."]%string ∧
    game_loop 2 game ["go north"; "quit"]%string = Returned game'' [] ∧
    current_room (player game'') = current_room (player game').
Proof.
  eexists _, _, _.
  split; [vm_compute; reflexivity|]. split; [vm_compute; reflexivity|].
  split; [vm_compute; reflexivity|]. split; [vm_compute; reflexivity|].
  split; [vm_compute; reflexivity|]. split; [vm_compute; reflexivity|].
  split; [vm_compute; reflexivity | vm_compute; reflexivity].
Qed.

End SessionTheorems.

(** ** More on the loader: lookup, ignored lines, failures, exits *)

Section LoaderExtras.

Implicit Types (game : GameState) (line : string) (lines : list string).

(** X1.  [find_room_by_id] returns [NULL] exactly when no stored room
    has the id; otherwise it returns a slot in use whose room has the
    id, and no earlier slot has it. *)
Theorem find_room_by_id_spec game x :
  (find_room_by_id game x = None ↔ ∀ r, r ∈ all_rooms game → id r ≠ x) ∧
  (∀ i, find_room_by_id game x = Some i →
        (i < num_rooms game)%nat ∧
        ∃ r, all_rooms game !! i = Some r ∧ id r = x ∧
             ∀ j r', (j < i)%nat → all_rooms game !! j = Some r' →
                     id r' ≠ x).
Proof.
  split.
  - rewrite find_room_by_id_None, list_elem_of_fmap. split.
    + intros Hno r Hr Hid. apply Hno. by exists r.
    + intros Hno (r & -> & Hr). by apply (Hno r).
  - intros i Hfind. split; [by eapply find_room_by_id_lt|].
    apply find_room_by_id_Some in Hfind as (r & Hr & Hid & Hmin).
    exists r. repeat split; try done. intros j r' Hj Hr'. by eapply Hmin.
Qed.

Lemma find_room_by_id_spec_witness :
  find_room_by_id two_rooms 1 = Some 1%nat ∧
  (1 < num_rooms two_rooms)%nat ∧
  find_room_by_id two_rooms 5 = None ∧
  ∀ r, r ∈ all_rooms two_rooms → id r ≠ 5.
Proof.
  assert (find_room_by_id two_rooms 1 = Some 1%nat) as Hfound
      by (vm_compute; reflexivity).
  assert (find_room_by_id two_rooms 5 = None) as Hmissing
      by (vm_compute; reflexivity).
  split; [exact Hfound|].
  split; [exact (proj1 (proj2 (find_room_by_id_spec two_rooms 1) _ Hfound))|].
  split; [exact Hmissing|].
  exact (proj1 (proj1 (find_room_by_id_spec two_rooms 5)) Hmissing).
Defined.

(** Pass 1 reads the room lines only and pass 2 the link lines only. *)
Lemma load_rooms_room_lines lines game :
  load_rooms (filter (λ l, is_room_line l = true) lines) game
  = load_rooms lines game.
Proof.
  revert game. induction lines as [|line lines IH]; intros game; [done|].
  rewrite filter_cons. cbn [load_rooms].
  destruct (is_room_line line) eqn:Hroom.
  - rewrite decide_True by done. cbn [load_rooms]. rewrite Hroom.
    destruct (parse_room line game); cbn [mbind option_bind]; [apply IH|done].
  - rewrite decide_False by done. apply IH.
Qed.

Lemma load_links_link_lines lines game :
  load_links (filter (λ l, is_link_line l = true) lines) game
  = load_links lines game.
Proof.
  revert game. induction lines as [|line lines IH]; intros game; [done|].
  rewrite filter_cons. cbn [load_links].
  destruct (is_link_line line) eqn:Hlink.
  - rewrite decide_True by done. cbn [load_links]. rewrite Hlink.
    destruct (parse_link line game); cbn [mbind option_bind]; [apply IH|done].
  - rewrite decide_False by done. apply IH.
Qed.

(** X2.  What [load_world] returns depends only on the sequence of the
    room lines and the sequence of the link lines of the file: lines
    that start with neither word are ignored, and room lines may stand
    anywhere among the link lines. *)
Theorem load_world_depends_on_map_lines text1 text2 :
  filter (λ l, is_room_line l = true) (map_lines text1)
  = filter (λ l, is_room_line l = true) (map_lines text2) →
  filter (λ l, is_link_line l = true) (map_lines text1)
  = filter (λ l, is_link_line l = true) (map_lines text2) →
  load_world (Some text1) = load_world (Some text2).
Proof.
  intros Hrooms Hlinks. unfold load_world. cbn [mbind option_bind].
  rewrite <- (load_rooms_room_lines (map_lines text1)), Hrooms,
    load_rooms_room_lines.
  destruct (load_rooms (map_lines text2) empty_game) as [game|]; [|done].
  cbn [mbind option_bind].
  by rewrite <- (load_links_link_lines (map_lines text1)), Hlinks,
    load_links_link_lines.
Qed.

Lemma load_world_depends_on_map_lines_witness :
  map_lines ordered_map ≠ map_lines shuffled_map ∧
  load_world (Some ordered_map) = load_world (Some shuffled_map) ∧
  is_Some (load_world (Some shuffled_map)).
Proof.
  split; [vm_compute; discriminate|].
  split; [|apply load_world_is_Some; vm_compute; reflexivity].
  apply (load_world_depends_on_map_lines ordered_map shuffled_map);
    vm_compute; reflexivity.
Defined.

Lemma forallb_false_elem {A} (f : A → bool) (l : list A) :
  forallb f l = false → ∃ x, x ∈ l ∧ f x = false.
Proof.
  induction l as [|x l IH]; cbn [forallb]; [done|].
  destruct (f x) eqn:Hx; cbn [andb].
  - intros H. destruct (IH H) as (y & Hy & Hfy). exists y.
    split; [by apply list_elem_of_further | done].
  - intros _. exists x. split; [apply list_elem_of_here | done].
Qed.

Lemma room_line_ok_false line :
  room_line_ok line = false ↔ unscanned_room_line line.
Proof.
  unfold room_line_ok, unscanned_room_line.
  destruct (is_room_line line); [|by split; [|intros []]].
  destruct (sscanf_room line) as [d|].
  - rewrite bool_decide_eq_true_2 by eauto. by split; [|intros []].
  - rewrite bool_decide_eq_false_2 by (by intros []). done.
Qed.

Lemma link_line_ok_false ids line :
  link_line_ok ids line = false ↔
  unscanned_link_line line ∨ dangling_link_line ids line.
Proof.
  unfold link_line_ok, link_decl, unscanned_link_line, dangling_link_line.
  destruct (is_link_line line);
    [|by split; [|intros [[] | []]]].
  destruct (sscanf_link line) as [[[f ds] t]|]; cbn [mbind option_bind].
  - destruct (direction_of_code ds) as [d|] eqn:Hd; cbn [mbind option_bind].
    + rewrite andb_false_iff, !bool_decide_eq_false. split.
      * intros Hnot. right. split; [done|]. by exists f, ds, t.
      * intros [[_ [|(f' & ds' & t' & [= <- <- <-] & ?)]]
               | [_ (f' & ds' & t' & [= <- <- <-] & ?)]]; congruence.
    + split; [|done]. intros _. left. split; [done|]. right.
      by exists f, ds, t.
  - split; [|done]. intros _. left. split; [done|]. by left.
Qed.

(** X3.  [load_world] returns no world in these cases and no others: the
    file cannot be opened; it has more than [MAX_ROOMS] room lines; one
    of its lines is a room line that does not scan, a link line that
    does not scan or names no direction, or a link line with an id that
    no room line declares. *)
Theorem load_world_fails_iff file :
  load_world file = None ↔
  file = None ∨
  ∃ text, file = Some text ∧
    ((MAX_ROOMS < room_line_count (map_lines text))%nat ∨
     ∃ line, line ∈ map_lines text ∧
       (unscanned_room_line line ∨ unscanned_link_line line ∨
        dangling_link_line (declared_ids (map_lines text)) line)).
Proof.
  destruct file as [text|]; [|by split; [left|]].
  rewrite eq_None_not_Some, load_world_is_Some, not_true_iff_false.
  unfold well_formed_map. rewrite !andb_false_iff, bool_decide_eq_false.
  split.
  - intros [[Hrooms | Hmany] | Hlinks]; right; exists text; (split; [done|]).
    + apply forallb_false_elem in Hrooms as (line & Hin & Hbad).
      right. exists line. split; [done|]. left. by apply room_line_ok_false.
    + left. lia.
    + apply forallb_false_elem in Hlinks as (line & Hin & Hbad).
      right. exists line. split; [done|]. right. by apply link_line_ok_false.
  - intros [[=] | (text' & [= <-] & [Hmany | (line & Hin & Hbad)])].
    + left. right. lia.
    + apply list_elem_of_In in Hin.
      destruct Hbad as [Hbad | Hbad].
      * left. left. apply not_true_iff_false. intros Hall.
        rewrite forallb_forall in Hall. specialize (Hall line Hin).
        apply room_line_ok_false in Hbad. congruence.
      * right. apply not_true_iff_false. intros Hall.
        rewrite forallb_forall in Hall. specialize (Hall line Hin).
        apply (link_line_ok_false (declared_ids (map_lines text))) in Hbad.
        congruence.
Qed.

Lemma load_world_fails_iff_witness :
  load_world (Some dangling_map) = None ∧
  ∃ text, Some dangling_map = Some text ∧
    ((MAX_ROOMS < room_line_count (map_lines text))%nat ∨
     ∃ line, line ∈ map_lines text ∧
       (unscanned_room_line line ∨ unscanned_link_line line ∨
        dangling_link_line (declared_ids (map_lines text)) line)).
Proof.
  assert (load_world (Some dangling_map) = None) as Hnone
      by (vm_compute; reflexivity).
  split; [exact Hnone|].
  destruct (proj1 (load_world_fails_iff (Some dangling_map)) Hnone)
    as [[=] | Hwhy].
  exact Hwhy.
Defined.

(** Where an exit of the state after pass 2 comes from: it was there
    before, or it is the room of the last link line for its slot. *)
Lemma load_links_origin lines game game' i d j :
  load_links lines game = Some game' →
  exit_of game' i d = Some j →
  exit_of game i d = Some j ∨
  ∃ from_id to_id,
    find_room_by_id game from_id = Some i ∧
    last_link lines from_id d = Some to_id ∧
    find_room_by_id game to_id = Some j.
Proof.
  revert game. induction lines as [|line lines IH]; intros game;
    cbn [load_links last_link]; [intros [= <-]; auto|].
  destruct (is_link_line line) eqn:Hlink.
  - destruct (parse_link line game) as [game1|] eqn:Hparse; [|done].
    cbn [mbind option_bind]. intros Hload Hexit.
    pose proof (parse_link_frame _ _ _ Hparse) as (Hids & _).
    destruct (IH game1 Hload Hexit) as [Hold | (f & t & Hf & Hlast & Ht)].
    + apply parse_link_Some in Hparse
        as (f0 & ds & t0 & d0 & i0 & j0 & Hscan & Hd & Hf0 & Ht0 & ->).
      rewrite exit_of_set_exit in Hold by (by eapply find_room_by_id_lt).
      case_decide as Hslot; [|by left]. destruct Hslot as [-> ->].
      injection Hold as ->. right.
      destruct (last_link lines f0 d0) as [t'|] eqn:Hlast.
      * exists f0, t'. rewrite Hlast. split; [done|]. split; [done|].
        destruct (load_links_last _ _ _ _ _ _ Hload Hlast)
          as (i' & j' & Hi' & Hj' & Hexit').
        rewrite (find_room_by_id_ids _ game _ Hids) in Hi'.
        rewrite (find_room_by_id_ids _ game _ Hids) in Hj'.
        rewrite Hf0 in Hi'. injection Hi' as <-. congruence.
      * exists f0, t0. rewrite Hlast. split; [done|]. split; [|done].
        assert (link_decl line = Some (f0, d0, t0)) as ->
            by (apply link_decl_Some; eauto).
        by rewrite decide_True.
    + right. exists f, t. rewrite Hlast.
      by rewrite <- !(find_room_by_id_ids game1 game).
  - intros Hload Hexit.
    destruct (IH game Hload Hexit) as [Hold | (f & t & Hf & Hlast & Ht)];
      [by left|].
    right. exists f, t. by rewrite Hlast.
Qed.

(** X4.  In a loaded world an exit is never set without a link line: a
    room with an exit is the room that [find_room_by_id] returns for its
    own id, the exit is the room that the last link line for that id and
    direction names, and it is a room of the world. *)
Theorem load_world_exit_origin text game i r d j :
  load_world (Some text) = Some game →
  all_rooms game !! i = Some r →
  exits r d = Some j →
  (j < num_rooms game)%nat ∧
  find_room_by_id game (id r) = Some i ∧
  ∃ to_id,
    last_link (map_lines text) (id r) d = Some to_id ∧
    find_room_by_id game to_id = Some j.
Proof.
  intros Hload Hr Hexit.
  split; [by eapply (load_world_exits_resolve _ _ Hload)|].
  apply load_world_Some in Hload as (game1 & Hrooms & Hlinks).
  assert (exit_of game i d = Some j) as Hex
      by (unfold exit_of; by rewrite Hr).
  destruct (load_links_origin _ _ _ _ _ _ Hlinks Hex)
    as [Hold | (f & t & Hf & Hlast & Ht)].
  - apply load_rooms_Some in Hrooms as (-> & _).
    unfold exit_of in Hold; cbn in Hold. rewrite list_lookup_fmap in Hold.
    by destruct (declared_rooms _ !! i).
  - rewrite <- (load_links_find _ _ _ f Hlinks) in Hf.
    rewrite <- (load_links_find _ _ _ t Hlinks) in Ht.
    pose proof Hf as Hf'.
    apply find_room_by_id_Some in Hf' as (r' & Hr' & Hid & _).
    assert (r' = r) as -> by congruence. subst f.
    split; [done|]. by exists t.
Qed.

Lemma load_world_exit_origin_witness :
  ∃ game r,
    load_world (Some overridden_map) = Some game ∧
    all_rooms game !! 0%nat = Some r ∧
    exits r NORTH = Some 2%nat ∧
    (2 < num_rooms game)%nat ∧
    find_room_by_id game (id r) = Some 0%nat ∧
    ∃ to_id,
      last_link (map_lines overridden_map) (id r) NORTH = Some to_id ∧
      find_room_by_id game to_id = Some 2%nat.
Proof.
  eexists _, _.
  split; [vm_compute; reflexivity|].
  split; [vm_compute; reflexivity|].
  split; [vm_compute; reflexivity|].
  refine (load_world_exit_origin overridden_map _ 0 _ NORTH 2 _ _ _);
    vm_compute; reflexivity.
Defined.

Lemma load_world_declared_rooms text game :
  load_world (Some text) = Some game →
  (λ r, (id r, description r)) <$> all_rooms game
  = declared_rooms (map_lines text) ∧
  current_room (player game) = None ∧
  game_should_close game = false ∧
  log_messages game = [].
Proof.
  rewrite load_world_Some. intros (game1 & Hrooms & Hlinks).
  apply load_links_frame in Hlinks as (Hids & Hdescs & -> & -> & ->).
  apply load_rooms_Some in Hrooms as (-> & _). cbn in *.
  split; [|done].
  rewrite <- !list_fmap_compose in Hids, Hdescs.
  apply list_eq. intros k. rewrite list_lookup_fmap.
  apply (f_equal (λ l, l !! k)) in Hids, Hdescs.
  rewrite !list_lookup_fmap in Hids. rewrite !list_lookup_fmap in Hdescs.
  destruct (all_rooms game !! k) as [r|],
    (declared_rooms (map_lines text) !! k) as [[x desc]|];
    cbn in *; congruence.
Qed.

(** X5.  A loaded world holds the rooms that the room lines declare, in
    file order, with their ids and descriptions; the player is nowhere
    yet, the game is not closed and the log is empty. *)
Theorem load_world_initial_state text game :
  load_world (Some text) = Some game →
  (λ r, (id r, description r)) <$> all_rooms game
  = declared_rooms (map_lines text) ∧
  current_room (player game) = None ∧
  game_should_close game = false ∧
  log_messages game = [].
Proof. apply load_world_declared_rooms. Qed.

Lemma load_world_initial_state_witness :
  ∃ game,
    load_world (Some forward_map) = Some game ∧
    (λ r, (id r, description r)) <$> all_rooms game
    = [(0, "Library"%string); (1, "Cavern"%string)] ∧
    current_room (player game) = None.
Proof.
  eexists.
  assert (load_world (Some forward_map) = Some _) as Hload
      by (vm_compute; reflexivity).
  split; [exact Hload|].
  destruct (load_world_initial_state forward_map _ Hload)
    as (Hrooms & Hplayer & _).
  split; [|exact Hplayer]. rewrite Hrooms. vm_compute. reflexivity.
Defined.

End LoaderExtras.

(** ** The scanners: what a room line looks like *)

Section ScannerExtras.

Lemma string_length_app (a b : string) :
  String.length (a +:+ b) = (String.length a + String.length b)%nat.
Proof.
  induction a as [|c a IH]; [done|].
  change (S (String.length (a +:+ b)) = S (String.length a + String.length b)).
  by rewrite IH.
Qed.

Lemma string_app_assoc (a b c : string) : (a +:+ b) +:+ c = a +:+ (b +:+ c).
Proof.
  induction a as [|x a IH]; [done|].
  change (String x ((a +:+ b) +:+ c) = String x (a +:+ (b +:+ c))).
  by rewrite IH.
Qed.

Lemma string_forall_app p (a b : string) :
  string_forall p (a +:+ b) = string_forall p a && string_forall p b.
Proof.
  induction a as [|c a IH]; [done|].
  change (p c && string_forall p (a +:+ b)
          = p c && string_forall p a && string_forall p b).
  by rewrite IH, andb_assoc.
Qed.

Lemma string_forall_impl (p q : ascii → bool) (a : string) :
  (∀ c, p c = true → q c = true) →
  string_forall p a = true → string_forall q a = true.
Proof.
  intros Hpq. induction a as [|c a IH]; [done|]. cbn.
  rewrite !andb_true_iff. intros [Hc Ha]. auto.
Qed.

(** [span p s] cuts [s] after its longest prefix that passes [p]. *)
Lemma span_spec p s a b :
  span p s = (a, b) →
  s = a +:+ b ∧ string_forall p a = true ∧
  (b = EmptyString ∨ ∃ c b', b = String c b' ∧ p c = false).
Proof.
  revert a b. induction s as [|c s IH]; intros a b; cbn [span].
  - intros [= <- <-]. auto.
  - destruct (p c) eqn:Hc.
    + destruct (span p s) as [a' b'] eqn:Hspan. intros [= <- <-].
      destruct (IH a' b' eq_refl) as (-> & Ha & Hb).
      split; [done|]. split; [by cbn; rewrite Hc, Ha | done].
    + intros [= <- <-]. split; [done|]. split; [done|]. right. eauto.
Qed.

Lemma expect_Some c s s' : expect c s = Some s' ↔ s = String c s'.
Proof.
  destruct s as [|c' s0]; cbn; [by split|].
  destruct (Ascii.eqb_spec c c') as [->|Hne].
  - split; [by intros [= ->] | by intros [= ->]].
  - split; [done | by intros [= <- <-]].
Qed.

Lemma expect_str_Some p s s' : expect_str p s = Some s' ↔ s = p +:+ s'.
Proof.
  revert s. induction p as [|c p IH]; intros s; cbn [expect_str].
  - split; [by intros [= ->] | by intros ->].
  - destruct (expect c s) as [s0|] eqn:Hexp; cbn [mbind option_bind].
    + apply expect_Some in Hexp as ->. rewrite IH.
      split; [by intros -> | by intros [= ->]].
    + split; [done|]. intros ->.
      assert (expect c (String c (p +:+ s')) = Some (p +:+ s')) as Hs
          by (by apply expect_Some).
      change (String c p +:+ s') with (String c (p +:+ s')) in Hexp.
      congruence.
Qed.

Lemma scan_digits_spec acc s v rest :
  scan_digits acc s = (v, rest) →
  ∃ ds, s = ds +:+ rest ∧ string_forall isdigit ds = true.
Proof.
  revert acc. induction s as [|c s IH]; intros acc; cbn [scan_digits].
  - intros [= <- <-]. by exists EmptyString.
  - destruct (isdigit c) eqn:Hc.
    + intros Hscan. destruct (IH _ Hscan) as (ds & -> & Hds).
      exists (String c ds). split; [done|]. by cbn; rewrite Hc, Hds.
    + intros [= <- <-]. by exists EmptyString.
Qed.

Lemma isspace_not_dquote c : isspace c = true → not_dquote c = true.
Proof.
  destruct c as [[] [] [] [] [] [] [] []]; vm_compute; congruence.
Qed.

Lemma isdigit_not_dquote c : isdigit c = true → not_dquote c = true.
Proof.
  destruct c as [[] [] [] [] [] [] [] []]; vm_compute; congruence.
Qed.

Lemma int_of_Z_range z : int_range (int_of_Z z).
Proof.
  unfold int_range, int_of_Z.
  pose proof (Z.mod_pos_bound z (2 ^ 32) eq_refl).
  destruct (Z.leb_spec (2 ^ 31) (z mod 2 ^ 32)); lia.
Qed.

(** What [%d] takes from the input: white space, a sign and digits, at
    least one character, none of them a double quote. *)
Lemma scan_int_spec s i rest :
  scan_int s = Some (i, rest) →
  ∃ num, s = num +:+ rest ∧ num ≠ EmptyString ∧
         string_forall not_dquote num = true ∧ int_range i.
Proof.
  unfold scan_int, skip_space.
  destruct (span isspace s) as [ws s1] eqn:Hspan.
  apply span_spec in Hspan as (-> & Hws & _). cbn [snd].
  apply (string_forall_impl _ not_dquote) in Hws;
    [|apply isspace_not_dquote].
  assert (∀ (sign s2 : string) (negative : bool),
            string_forall not_dquote sign = true →
            match s2 with
            | String c _ =>
                if isdigit c
                then let '(v, rest0) := scan_digits 0 s2 in
                     Some (int_of_Z (if negative then - v else v), rest0)
                else None
            | EmptyString => None
            end = Some (i, rest) →
            ∃ num, ws +:+ (sign +:+ s2) = num +:+ rest ∧ num ≠ EmptyString ∧
                   string_forall not_dquote num = true ∧ int_range i)
    as Hdigits.
  { intros sign s2 negative Hsign.
    destruct s2 as [|c s2]; [done|].
    destruct (isdigit c) eqn:Hc; [|done].
    destruct (scan_digits 0 (String c s2)) as [v rest0] eqn:Hscan.
    intros [= <- <-].
    cbn [scan_digits] in Hscan. rewrite Hc in Hscan.
    apply scan_digits_spec in Hscan as (ds & -> & Hall).
    apply (string_forall_impl _ not_dquote) in Hall;
      [|apply isdigit_not_dquote].
    apply isdigit_not_dquote in Hc.
    exists (ws +:+ (sign +:+ String c ds)).
    split; [|split; [|split; [|apply int_of_Z_range]]].
    - rewrite !string_app_assoc. done.
    - intros Hempty. apply (f_equal String.length) in Hempty.
      rewrite !string_length_app in Hempty. cbn in Hempty. lia.
    - rewrite !string_forall_app, Hws, Hsign. cbn. by rewrite Hc, Hall. }
  destruct s1 as [|c s1]; [done|].
  destruct (Ascii.eqb_spec c "-"%char) as [->|Hminus].
  { intros H. apply (Hdigits "-"%string s1 true eq_refl H). }
  destruct (Ascii.eqb_spec c "+"%char) as [->|Hplus].
  { intros H. apply (Hdigits "+"%string s1 false eq_refl H). }
  intros H. apply (Hdigits EmptyString (String c s1) false eq_refl).
  revert H. clear -Hminus Hplus.
  destruct c as [[] [] [] [] [] [] [] []]; try done.
Qed.

Lemma skip_space_spec s :
  ∃ ws, s = ws +:+ skip_space s ∧ string_forall isspace ws = true.
Proof.
  unfold skip_space. destruct (span isspace s) as [ws s'] eqn:Hspan.
  apply span_spec in Hspan as (-> & Hws & _). by exists ws.
Qed.

Lemma sscanf_room_parts line i desc :
  sscanf_room line = Some (i, desc) →
  ∃ pre rest,
    line = "room" +:+ pre +:+ String dquote (desc +:+ rest) ∧
    pre ≠ EmptyString ∧
    string_forall not_dquote pre = true ∧
    desc ≠ EmptyString ∧
    string_forall not_dquote desc = true ∧
    (rest = EmptyString ∨ ∃ r, rest = String dquote r) ∧
    int_range i.
Proof.
  unfold sscanf_room.
  destruct (expect_str "room" line) as [s0|] eqn:Hroom; [|done].
  apply expect_str_Some in Hroom as ->. cbn [mbind option_bind].
  destruct (skip_space_spec s0) as (ws0 & Hs0 & Hws0).
  destruct (scan_int (skip_space s0)) as [[i' s1]|] eqn:Hint; [|done].
  apply scan_int_spec in Hint as (num & Hs0' & Hnum & Hnumq & Hrange).
  cbn [mbind option_bind].
  destruct (skip_space_spec s1) as (ws1 & Hs1 & Hws1).
  destruct (expect dquote (skip_space s1)) as [s2|] eqn:Hquote; [|done].
  apply expect_Some in Hquote. cbn [mbind option_bind].
  unfold scan_unquoted.
  destruct (span _ s2) as [d rest] eqn:Hdesc.
  apply span_spec in Hdesc as (-> & Hd & Hrest).
  destruct d as [|c d]; [done|]. cbn [mbind option_bind].
  intros [= <- <-].
  apply (string_forall_impl _ not_dquote) in Hws0, Hws1;
    try apply isspace_not_dquote.
  exists (ws0 +:+ (num +:+ ws1)), rest.
  split.
  { rewrite Hs0, Hs0', Hs1, Hquote. by rewrite !string_app_assoc. }
  split.
  { intros Hempty. apply (f_equal String.length) in Hempty.
    rewrite !string_length_app in Hempty.
    destruct num; [done | cbn in Hempty; lia]. }
  split; [by rewrite !string_forall_app, Hws0, Hnumq, Hws1|].
  split; [done|]. split; [exact Hd|]. split; [|done].
  destruct Hrest as [-> | (c' & r & -> & Hc')]; [by left|].
  right. exists r. f_equal.
  apply negb_false_iff in Hc'. by apply Ascii.eqb_eq in Hc'.
Qed.



Lemma span_fst_length p s :
  (String.length (fst (span p s)) ≤ String.length s)%nat.
Proof.
  induction s as [|c s IH]; cbn [span]; [done|].
  destruct (p c); [|cbn; lia].
  destruct (span p s); cbn in *. lia.
Qed.

Lemma fgets_length n s : (String.length (fst (fgets n s)) ≤ n)%nat.
Proof.
  revert s. induction n as [|n IH]; intros [|c s]; cbn [fgets]; cbn; try lia.
  destruct (Ascii.eqb c newline); cbn; [lia|].
  specialize (IH s). destruct (fgets n s); cbn in *. lia.
Qed.

(** No line that the passes see is longer than the buffer allows. *)
Lemma map_lines_length text line :
  line ∈ map_lines text → (String.length line < LINE_SIZE)%nat.
Proof.
  unfold map_lines, file_lines. generalize (String.length text) as fuel.
  intros fuel. revert text. induction fuel as [|fuel IH]; intros text;
    cbn [read_lines]; [by intros ?%elem_of_nil|].
  destruct text as [|c text]; [by intros ?%elem_of_nil|].
  pose proof (fgets_length (LINE_SIZE - 1) (String c text)) as Hlen.
  destruct (fgets (LINE_SIZE - 1) (String c text)) as [l r].
  intros [-> | Hin]%elem_of_cons; [|by eapply IH].
  pose proof (span_fst_length (λ c, negb (Ascii.eqb c nul)) l) as Hc.
  unfold c_str. cbn in Hlen. unfold LINE_SIZE in *. lia.
Qed.

Lemma declared_rooms_elem lines x desc :
  (x, desc) ∈ declared_rooms lines →
  ∃ line, line ∈ lines ∧ is_room_line line = true ∧
          sscanf_room line = Some (x, desc).
Proof.
  unfold declared_rooms. rewrite list_elem_of_omap.
  intros (line & Hin & Hdecl). exists line. split; [done|].
  unfold room_decl in Hdecl. by destruct (is_room_line line).
Qed.

(** X7.  Every room of a loaded world has a description that is not
    empty, holds no double quote and, with its closing NUL, fits the
    array of [LINE_SIZE] characters it is copied into; its id is an
    [int]. *)
Theorem loaded_room_description text game r :
  load_world (Some text) = Some game →
  r ∈ all_rooms game →
  description r ≠ EmptyString ∧
  string_forall not_dquote (description r) = true ∧
  (String.length (description r) + 6 < LINE_SIZE)%nat ∧
  int_range (id r).
Proof.
  intros Hload Hr.
  apply load_world_declared_rooms in Hload as (Hrooms & _).
  assert ((id r, description r) ∈ declared_rooms (map_lines text)) as Hdecl.
  { rewrite <- Hrooms. apply list_elem_of_fmap. by exists r. }
  apply declared_rooms_elem in Hdecl as (line & Hin & _ & Hscan).
  apply map_lines_length in Hin.
  apply sscanf_room_parts in Hscan
    as (pre & rest & -> & Hpre & _ & Hdesc & Hquote & _ & Hrange).
  split; [done|]. split; [done|]. split; [|done].
  rewrite !string_length_app in Hin. cbn in Hin.
  rewrite string_length_app in Hin.
  destruct pre; [done|]. cbn in Hin. lia.
Qed.

Lemma loaded_room_description_witness :
  ∃ game,
    load_world (Some forward_map) = Some game ∧
    num_rooms game = 2%nat ∧
    ∀ r, r ∈ all_rooms game →
         description r ≠ EmptyString ∧
         (String.length (description r) + 6 < LINE_SIZE)%nat.
Proof.
  eexists.
  assert (load_world (Some forward_map) = Some _) as Hload
      by (vm_compute; reflexivity).
  split; [exact Hload|]. split; [vm_compute; reflexivity|].
  intros r Hr.
  destruct (loaded_room_description forward_map _ r Hload Hr)
    as (Hne & _ & Hlen & _).
  split; [exact Hne | exact Hlen].
Defined.

End ScannerExtras.

(** ** More on the session: look, the dispatcher, the loop and [main] *)

Section SessionExtras.

Implicit Types (game : GameState) (message word : string).

Lemma exits_message_shown room :
  exits_message room
  = match shown_exits room with
    | [] => "There are no obvious exits."
    | ds => "Exits: "
            +:+ String.concat "" ((λ d, direction_to_string d +:+ " ") <$> ds)
    end.
Proof.
  unfold exits_message, shown_exits, all_directions.
  cbn [foldl]. unfold look_step. rewrite !filter_cons, filter_nil.
  destruct (exits room NORTH), (exits room SOUTH), (exits room EAST),
    (exits room WEST);
    repeat first [ rewrite decide_True by eauto
                 | rewrite decide_False by apply is_Some_None ];
    reflexivity.
Qed.

Lemma exits_message_length room :
  (String.length (exits_message room) < 100)%nat.
Proof.
  unfold exits_message, all_directions. cbn [foldl]. unfold look_step.
  destruct (exits room NORTH), (exits room SOUTH), (exits room EAST),
    (exits room WEST); vm_compute; lia.
Qed.

(** X8.  A look logs the description of the current room and then one
    more line: the word Exits and the names of the directions that have
    an exit, in the order north, south, east, west, or the notice that
    there are none.  That line fits the array of 100 characters it is
    built in; the argument is not used and nothing but the log changes. *)
Theorem handle_look_lists_exits game argument i room :
  current_room (player game) = Some i →
  all_rooms game !! i = Some room →
  ∃ game',
    handle_look game argument = Some game' ∧
    log_messages game'
    = logged (logged (log_messages game) (description room))
             (exits_message room) ∧
    exits_message room
    = match shown_exits room with
      | [] => "There are no obvious exits."
      | ds => "Exits: "
              +:+ String.concat ""
                    ((λ d, direction_to_string d +:+ " ") <$> ds)
      end ∧
    (String.length (exits_message room) < 100)%nat ∧
    player game' = player game ∧
    all_rooms game' = all_rooms game ∧
    game_should_close game' = game_should_close game.
Proof.
  intros Hi Hroom. eexists. split; [by eapply handle_look_Some|].
  split; [done|]. split; [apply exits_message_shown|].
  split; [apply exits_message_length | done].
Qed.

Lemma handle_look_lists_exits_witness :
  ∃ game',
    handle_look in_library None = Some game' ∧
    log_messages game' = ["Library"; "Library"; "Exits: north "]%string ∧
    shown_exits library = [NORTH].
Proof.
  destruct (handle_look_lists_exits in_library None 0 library eq_refl eq_refl)
    as (game' & Hlook & Hlog & _).
  exists game'. split; [exact Hlook|]. split; [|vm_compute; reflexivity].
  rewrite Hlog. vm_compute. reflexivity.
Defined.

(** X9.  The names the exits line shows are words that [handle_go]
    takes, each for its own direction; so are the one-letter codes of
    the map file, and no two directions share a name. *)
Theorem direction_names_round_trip d :
  direction_of_word (direction_to_string d) = Some d ∧
  (∀ code, direction_of_code code = Some d →
           direction_of_word code = Some d ∧
           code = String.substring 0 1 (direction_to_string d)) ∧
  (∀ d', direction_to_string d' = direction_to_string d → d' = d).
Proof.
  split; [by destruct d|]. split.
  - intros code. unfold direction_of_code, streq.
    repeat
      match goal with
      | |- context [String.eqb code ?w] =>
          destruct (String.eqb_spec code w) as [?|?];
          [subst code; intros [= <-]; by split|]
      end.
    done.
  - intros d'. by destruct d, d'.
Qed.

Lemma streq_elem verb (names : list string) :
  verb ∉ names → ∀ w, w ∈ names → streq verb w = false.
Proof.
  intros Hnot w Hw. unfold streq.
  destruct (String.eqb_spec verb w) as [->|]; [by destruct Hnot | done].
Qed.

(** X10.  A line whose verb is [quit] or [exit], in any mix of upper and
    lower case and whatever follows it, sets the termination flag and
    changes nothing else. *)
Theorem quit_command_closes game input :
  is_quit_command input = true →
  parse_and_execute_command game input
  = Some (set_game_should_close game true).
Proof.
  unfold is_quit_command, parse_and_execute_command.
  destruct (strtok (lowercase input)) as [[verb rest]|]; [|done].
  unfold streq. rewrite orb_true_iff, !String.eqb_eq.
  by intros [-> | ->].
Qed.

Lemma quit_command_closes_witness :
  is_quit_command "  Quit now" = true ∧
  parse_and_execute_command in_library "  Quit now"
  = Some (set_game_should_close in_library true).
Proof.
  split; [vm_compute; reflexivity|].
  apply (quit_command_closes in_library "  Quit now").
  vm_compute; reflexivity.
Defined.

Lemma span_all p s : string_forall p s = true → span p s = (s, EmptyString).
Proof.
  induction s as [|c s IH]; cbn; [done|].
  rewrite andb_true_iff. intros [-> Hs]. by rewrite (IH Hs).
Qed.

Lemma is_delim_tolower c : is_delim (tolower c) = is_delim c.
Proof. destruct c as [[] [] [] [] [] [] [] []]; reflexivity. Qed.

Lemma string_forall_lowercase_delim s :
  string_forall is_delim (lowercase s) = string_forall is_delim s.
Proof.
  induction s as [|c s IH]; cbn; [done|]. by rewrite is_delim_tolower, IH.
Qed.

(** X11.  An input line that is empty or made of spaces and newlines only
    is ignored: the game state is returned as it is and nothing is
    logged. *)
Theorem blank_input_is_ignored game input :
  string_forall is_delim input = true →
  parse_and_execute_command game input = Some game.
Proof.
  intros Hblank. unfold parse_and_execute_command, strtok.
  rewrite <- string_forall_lowercase_delim in Hblank.
  by rewrite (span_all _ _ Hblank).
Qed.

Lemma blank_input_is_ignored_witness :
  string_forall is_delim "   " = true ∧
  parse_and_execute_command in_library "   " = Some in_library ∧
  parse_and_execute_command in_library "" = Some in_library.
Proof.
  split; [vm_compute; reflexivity|].
  split; apply blank_input_is_ignored; vm_compute; reflexivity.
Defined.

(** X12.  A line whose verb is none of the fourteen names of the command
    table is answered with the message that the command is not
    understood; nothing but the log changes. *)
Theorem unknown_command_is_logged game input verb rest :
  strtok (lowercase input) = Some (verb, rest) →
  verb ∉ command_names →
  parse_and_execute_command game input
  = Some (ui_log game "I don't understand that command.").
Proof.
  intros Htok Hnot. unfold parse_and_execute_command. rewrite Htok.
  pose proof (streq_elem verb command_names Hnot) as Hne.
  assert (∀ w, bool_decide (w ∈ command_names) = true → streq verb w = false)
    as Hne' by (intros w Hw; apply Hne; by apply bool_decide_eq_true in Hw).
  unfold is_direction_word.
  rewrite !Hne' by (vm_compute; reflexivity). cbn [orb].
  cbn [lookup_command command_table command handler].
  by rewrite !Hne' by (vm_compute; reflexivity).
Qed.

Lemma unknown_command_is_logged_witness :
  strtok (lowercase "Dance wildly") = Some ("dance", "wildly")%string ∧
  ("dance"%string ∉ command_names) ∧
  parse_and_execute_command in_library "Dance wildly"
  = Some (ui_log in_library "I don't understand that command.").
Proof.
  assert ("dance"%string ∉ command_names) as Hnot.
  { apply (bool_decide_unpack _). vm_compute. exact I. }
  split; [vm_compute; reflexivity|]. split; [exact Hnot|].
  apply (unknown_command_is_logged in_library "Dance wildly" "dance" "wildly");
    [vm_compute; reflexivity | exact Hnot].
Defined.

Lemma direction_word_is_direction verb dir :
  direction_of_word verb = Some dir → is_direction_word verb = true.
Proof.
  rewrite direction_of_word_Some. by intros [-> | ->]; destruct dir.
Qed.

(** X13.  A line whose verb is a direction word is a go in that
    direction, whatever follows the verb; a line whose verb is [go] is a
    go with the next word as its argument, or with none. *)
Theorem movement_commands game input verb rest :
  strtok (lowercase input) = Some (verb, rest) →
  (∀ dir, direction_of_word verb = Some dir →
          parse_and_execute_command game input
          = handle_go game (Some verb)) ∧
  (verb = "go"%string →
   parse_and_execute_command game input
   = handle_go game (fst <$> strtok rest)).
Proof.
  intros Htok. unfold parse_and_execute_command. rewrite Htok. split.
  - intros dir Hdir. by rewrite (direction_word_is_direction _ _ Hdir).
  - by intros ->.
Qed.

Lemma movement_commands_witness :
  strtok (lowercase "North by northwest")
  = Some ("north", "by northwest")%string ∧
  parse_and_execute_command in_library "North by northwest"
  = handle_go in_library (Some "north"%string).
Proof.
  assert (strtok (lowercase "North by northwest")
          = Some ("north", "by northwest")%string) as Htok
      by (vm_compute; reflexivity).
  split; [exact Htok|].
  apply (proj1 (movement_commands in_library _ _ _ Htok) NORTH).
  vm_compute; reflexivity.
Defined.

Lemma direction_names_round_trip_witness :
  direction_of_code "n" = Some NORTH ∧
  direction_of_word "n" = Some NORTH ∧
  direction_of_word (direction_to_string NORTH) = Some NORTH.
Proof.
  destruct (direction_names_round_trip NORTH) as (Hname & Hcode & _).
  split; [reflexivity|].
  split; [exact (proj1 (Hcode "n"%string eq_refl)) | exact Hname].
Defined.

(** *** What a command can change *)

Lemma handle_look_frame game argument game' :
  handle_look game argument = Some game' →
  all_rooms game' = all_rooms game ∧ player game' = player game.
Proof.
  unfold handle_look.
  destruct (current_room (player game)) as [i|]; [|done].
  cbn [mbind option_bind].
  destruct (all_rooms game !! i) as [room|]; [|done].
  cbn [mbind option_bind].
  destruct (foldl _ _ _) as [exits_str []]; by intros [= <-].
Qed.

Lemma handle_go_frame game argument game' :
  handle_go game argument = Some game' → all_rooms game' = all_rooms game.
Proof.
  unfold handle_go. destruct argument as [word|]; [|by intros [= <-]].
  destruct (direction_of_word word) as [dir|]; [|by intros [= <-]].
  destruct (current_room (player game)) as [i|]; [|done].
  cbn [mbind option_bind].
  destruct (all_rooms game !! i) as [room|]; [|done].
  cbn [mbind option_bind].
  destruct (exits room dir) as [next|]; [|by intros [= <-]].
  intros Hlook. by apply handle_look_frame in Hlook as [-> _].
Qed.

Lemma parse_and_execute_command_frame game input game' :
  parse_and_execute_command game input = Some game' →
  all_rooms game' = all_rooms game ∧
  (is_go_command input = false → player game' = player game).
Proof.
  unfold parse_and_execute_command, is_go_command.
  destruct (strtok (lowercase input)) as [[verb rest]|];
    [|by intros [= <-]].
  destruct (is_direction_word verb) eqn:Hdir.
  - rewrite orb_true_r. intros Hgo.
    change (handle_go game (Some verb) = Some game') in Hgo.
    split; [by eapply handle_go_frame | done].
  - rewrite orb_false_r.
    unfold is_direction_word in Hdir. rewrite !orb_false_iff in Hdir.
    destruct Hdir as (((((((? & ?) & ?) & ?) & ?) & ?) & ?) & ?).
    cbn [lookup_command command_table command handler].
    repeat
      match goal with
      | |- context [if streq verb ?w then _ else _] =>
          destruct (streq verb w) eqn:?; cbn [handler];
          [ try unfold handle_quit; try unfold handle_help; cbv zeta;
            first [ intros [= <-]; by split
                  | intros Hh; apply handle_look_frame in Hh; by destruct Hh
                  | intros Hh; split; [by eapply handle_go_frame | done]
                  | intros Hh; split;
                    [by eapply handle_go_frame | congruence] ]
          |]
      end.
    intros [= <-]. by split.
Qed.

(** X14.  From a running game every input line is dispatched without a
    null room pointer being read, and the state it leaves is a running
    game again: exits and current room point to rooms and the log holds
    at most [MAX_LOG_MESSAGES] messages.  No command changes the rooms;
    only a quit command sets the termination flag, and only a go command
    can change the player. *)
Theorem commands_keep_the_game_running game input :
  game_ok game →
  ∃ game',
    parse_and_execute_command game input = Some game' ∧
    game_ok game' ∧
    all_rooms game' = all_rooms game ∧
    game_should_close game'
    = game_should_close game || is_quit_command input ∧
    (is_go_command input = false → player game' = player game).
Proof.
  intros Hok.
  destruct (parse_and_execute_command_ok game input Hok)
    as (game' & Hcmd & Hok' & Hflag).
  destruct (parse_and_execute_command_frame _ _ _ Hcmd) as [Hrooms Hplayer].
  by exists game'.
Qed.

Lemma commands_keep_the_game_running_witness :
  ∃ game game',
    start_game (Some forward_map) = Some game ∧
    parse_and_execute_command game "look around" = Some game' ∧
    game_ok game' ∧
    all_rooms game' = all_rooms game ∧
    player game' = player game.
Proof.
  eexists.
  assert (start_game (Some forward_map) = Some _) as Hstart
      by (vm_compute; reflexivity).
  destruct (start_game_ok _ _ Hstart) as [Hok _].
  destruct (commands_keep_the_game_running _ "look around" Hok)
    as (game' & Hcmd & Hok' & Hrooms & _ & Hplayer).
  exists game'. split; [exact Hstart|]. split; [exact Hcmd|].
  split; [exact Hok'|]. split; [exact Hrooms|].
  apply Hplayer. vm_compute; reflexivity.
Defined.

(** The loop, for any fuel: it reads no null room pointer, and what it
    returns is a running game with the flag set and the rooms it
    started with, the unread lines being the end of the input. *)
Lemma game_loop_safe fuel game inputs :
  game_ok game →
  game_loop fuel game inputs ≠ Undefined ∧
  ∀ game' unread,
    game_loop fuel game inputs = Returned game' unread →
    game_ok game' ∧ game_should_close game' = true ∧
    all_rooms game' = all_rooms game ∧
    ∃ used, inputs = used ++ unread.
Proof.
  revert game inputs. induction fuel as [|fuel IH]; intros game inputs Hok.
  - cbn [game_loop]. destruct (game_should_close game) eqn:Hflag;
      [|by split].
    split; [done|]. intros game' unread [= <- <-].
    split; [done|]. split; [done|]. split; [done|]. by exists [].
  - cbn [game_loop]. destruct (game_should_close game) eqn:Hflag.
    { split; [done|]. intros game' unread [= <- <-].
      split; [done|]. split; [done|]. split; [done|]. by exists []. }
    rewrite (ui_draw_ok _ Hok).
    destruct (ui_get_input inputs) as [line rest] eqn:Hinput.
    destruct (parse_and_execute_command_ok game line Hok)
      as (game1 & Hcmd & Hok1 & _).
    destruct (parse_and_execute_command_frame _ _ _ Hcmd) as [Hrooms _].
    rewrite Hcmd. destruct (IH game1 rest Hok1) as [Hdefined Hreturned].
    split; [done|]. intros game' unread Hloop.
    destruct (Hreturned _ _ Hloop) as (Hok' & Hflag' & Hrooms' & used & Hused).
    split; [done|]. split; [done|]. split; [congruence|].
    destruct inputs as [|l inputs]; cbn in Hinput.
    + injection Hinput as <- <-. destruct used; [|done].
      cbn in Hused. subst unread. by exists [].
    + injection Hinput as <- <-. exists (l :: used). by rewrite Hused.
Qed.

(** X15.  From a running game the loop never reads a null room pointer,
    however long it runs; when it returns, the flag is set, the state is
    a running game with the rooms it started with, and the unread lines
    are the end of the input. *)
Theorem game_loop_is_safe fuel game inputs :
  game_ok game →
  game_loop fuel game inputs ≠ Undefined ∧
  ∀ game' unread,
    game_loop fuel game inputs = Returned game' unread →
    game_ok game' ∧ game_should_close game' = true ∧
    all_rooms game' = all_rooms game ∧
    ∃ used, inputs = used ++ unread.
Proof. apply game_loop_safe. Qed.

Lemma game_loop_is_safe_witness :
  ∃ game,
    start_game (Some forward_map) = Some game ∧
    game_loop 5 game ["go north"; "go up"; "exit"; "look"]%string ≠ Undefined.
Proof.
  eexists.
  assert (start_game (Some forward_map) = Some _) as Hstart
      by (vm_compute; reflexivity).
  split; [exact Hstart|].
  destruct (start_game_ok _ _ Hstart) as [Hok _].
  exact (proj1 (game_loop_is_safe 5 _ _ Hok)).
Defined.

(** X16.  After any number of calls of [ui_log] on a log that fits its
    array, the log holds the most recent [MAX_LOG_MESSAGES] of all the
    messages, old and new, in the order they were logged. *)
Theorem log_keeps_most_recent game messages :
  (log_count game ≤ MAX_LOG_MESSAGES)%nat →
  log_messages (foldl ui_log game messages)
  = most_recent MAX_LOG_MESSAGES (log_messages game ++ messages).
Proof.
  revert game. induction messages as [|m messages IH]; intros game Hlen.
  - cbn [foldl]. unfold most_recent, log_count in *. rewrite app_nil_r.
    by replace (length (log_messages game) - MAX_LOG_MESSAGES)%nat
      with 0%nat by lia.
  - cbn [foldl]. rewrite IH by (by apply logged_length).
    rewrite ui_log_messages. unfold logged, log_count, most_recent in *.
    unfold MAX_LOG_MESSAGES in *. case_bool_decide as Hfull.
    + destruct (log_messages game) as [|oldest kept]; [cbn in Hfull; lia|].
      cbn [tail]. rewrite <- app_assoc. cbn [app].
      rewrite !length_app. cbn [length] in *. rewrite length_app.
      cbn [length].
      replace (S (length kept + S (length messages)) - 10)%nat
        with (S (length kept + S (length messages) - 10)) by lia.
      done.
    + by rewrite <- app_assoc.
Qed.

Lemma log_keeps_most_recent_witness :
  (log_count full_log_game ≤ MAX_LOG_MESSAGES)%nat ∧
  log_messages (foldl ui_log full_log_game ["a"; "b"; "c"]%string)
  = ["m3"; "m4"; "m5"; "m6"; "m7"; "m8"; "m9"; "a"; "b"; "c"]%string.
Proof.
  assert (log_count full_log_game ≤ MAX_LOG_MESSAGES)%nat as Hlen
      by (vm_compute; lia).
  split; [exact Hlen|].
  rewrite (log_keeps_most_recent full_log_game _ Hlen).
  vm_compute. reflexivity.
Defined.

(** X17.  The game starts exactly when the map is well formed and one of
    its room lines declares the id 0.  The player is then in the first
    room with that id, and the log holds the welcome, the description
    of that room and its exits line. *)
Theorem start_game_spec text :
  (start_game (Some text) = None ↔
   well_formed_map (map_lines text) = false ∨
   0 ∉ declared_ids (map_lines text)) ∧
  (∀ game, start_game (Some text) = Some game →
     ∃ world start room,
       load_world (Some text) = Some world ∧
       find_room_by_id world 0 = Some start ∧
       all_rooms world !! start = Some room ∧
       id room = 0 ∧
       current_room (player game) = Some start ∧
       all_rooms game = all_rooms world ∧
       game_should_close game = false ∧
       log_messages game = [welcome; description room; exits_message room]).
Proof.
  unfold start_game. cbn [mbind option_bind].
  destruct (load_world (Some text)) as [world|] eqn:Hload.
  - assert (well_formed_map (map_lines text) = true) as Hwf
        by (apply load_world_is_Some; rewrite Hload; eauto).
    pose proof (load_world_rooms _ _ Hload) as (Hids & _).
    pose proof (load_world_declared_rooms _ _ Hload) as (_ & _ & Hopen & Hlog).
    cbn [mbind option_bind].
    destruct (find_room_by_id world 0) as [start|] eqn:Hstart;
      cbn [mbind option_bind].
    + pose proof Hstart as Hfound.
      apply find_room_by_id_Some in Hfound as (room & Hroom & Hid & _).
      rewrite (handle_look_Some _ None start room) by done.
      split.
      * split; [done|]. intros [Hnot | Hnot]; [congruence|].
        rewrite <- Hids in Hnot. apply find_room_by_id_None in Hnot. congruence.
      * intros game [= <-]. exists world, start, room.
        repeat split; try done.
        rewrite !ui_log_messages. cbn [log_messages set_current_room].
        by rewrite Hlog.
    + split; [|done]. split; [|done]. intros _. right.
      rewrite <- Hids. by apply find_room_by_id_None.
  - cbn [mbind option_bind]. split; [|done]. split; [|done]. intros _. left.
    apply not_true_iff_false. intros Hwf.
    apply load_world_is_Some in Hwf as [? ?]. congruence.
Qed.

Lemma start_game_spec_witness :
  ∃ game world start room,
    start_game (Some small_map) = Some game ∧
    load_world (Some small_map) = Some world ∧
    find_room_by_id world 0 = Some start ∧
    all_rooms world !! start = Some room ∧
    log_messages game = [welcome; description room; exits_message room].
Proof.
  eexists.
  assert (start_game (Some small_map) = Some _) as Hstart
      by (vm_compute; reflexivity).
  destruct (proj2 (start_game_spec small_map) _ Hstart)
    as (world & start & room & Hload & Hfind & Hroom & _ & _ & _ & _ & Hlog).
  exists world, start, room. split; [exact Hstart|]. split; [exact Hload|].
  split; [exact Hfind|]. split; [exact Hroom | exact Hlog].
Defined.

Lemma first_quit_line (input : list string) :
  (∃ line, line ∈ input ∧ is_quit_command line = true) →
  ∃ before quit_line unread,
    input = before ++ quit_line :: unread ∧
    Forall (λ line, is_quit_command line = false) before ∧
    is_quit_command quit_line = true.
Proof.
  induction input as [|l input IH]; intros (line & Hin & Hquit);
    [by apply elem_of_nil in Hin|].
  destruct (is_quit_command l) eqn:Hl.
  - exists [], l, input. by repeat split.
  - apply elem_of_cons in Hin as [-> | Hin]; [congruence|].
    destruct IH as (before & q & unread & -> & Hno & Hq); [by exists line|].
    exists (l :: before), q, unread. repeat split; try done.
    by constructor.
Qed.

(** X18.  [main] exits with status 0 or 1 and no other.  It exits with 1
    exactly when it is not given one argument or the game does not
    start; once the game has started it exits, with 0, exactly when some
    input line is a quit or exit command. *)
Theorem main_exit_status argv fs input :
  (∀ fuel status,
     main argv fs fuel input = Some status → status = 0 ∨ status = 1) ∧
  (∀ fuel,
     main argv fs fuel input = Some 1 ↔
     length argv ≠ 2%nat ∨
     ∃ prog name, argv = [prog; name] ∧ start_game (fs name) = None) ∧
  (∀ prog name,
     argv = [prog; name] → is_Some (start_game (fs name)) →
     ((∃ fuel, main argv fs fuel input = Some 0) ↔
      ∃ line, line ∈ input ∧ is_quit_command line = true)).
Proof.
  split; [|split].
  - intros fuel status. unfold main.
    destruct argv as [|prog [|name [|? ?]]]; try (intros [= <-]; auto).
    destruct (start_game (fs name)) as [game|]; [|intros [= <-]; auto].
    destruct (game_loop fuel game input); [intros [= <-]; auto | done..].
  - intros fuel. unfold main.
    destruct argv as [|prog [|name [|? ?]]]; cbn [length];
      try (split; [intros _; left; lia | done]).
    destruct (start_game (fs name)) as [game|] eqn:Hstart.
    + split.
      * by destruct (game_loop fuel game input).
      * intros [? | (? & ? & [= <- <-] & ?)]; [lia | congruence].
    + split; [|done]. intros _. right. by exists prog, name.
  - intros prog name -> [game Hstart]. unfold main. rewrite Hstart.
    destruct (start_game_ok _ _ Hstart) as [Hok Hopen]. split.
    + intros [fuel Hexit].
      destruct (decide (Forall (λ line, is_quit_command line = false) input))
        as [Hno | Hsome].
      * by rewrite (game_loop_no_quit fuel game input Hok Hopen Hno) in Hexit.
      * apply not_Forall_Exists in Hsome; [|apply _].
        apply Exists_exists in Hsome as (line & Hin & Hline).
        exists line. split; [done|]. by apply not_false_iff_true.
    + intros Hquit.
      apply first_quit_line in Hquit as (before & q & unread & -> & Hno & Hq).
      destruct (game_loop_quit game before q unread Hok Hopen Hno Hq)
        as (game' & _ & _ & Hloop).
      exists (S (length before)). by rewrite Hloop by lia.
Qed.

Lemma main_exit_status_witness :
  main ["adventure"; "world.map"]%string (one_file small_map) 3
       ["look"; "north"; "quit"]%string = Some 0 ∧
  main ["adventure"]%string (one_file small_map) 3 ["quit"%string] = Some 1 ∧
  main ["adventure"; "other.map"]%string (one_file small_map) 3
       ["quit"%string] = Some 1.
Proof.
  split; [vm_compute; reflexivity|]. split.
  - apply (proj1 (proj2 (main_exit_status ["adventure"%string]
                           (one_file small_map) ["quit"%string]))).
    left. cbn. lia.
  - apply (proj1 (proj2 (main_exit_status
                           ["adventure"; "other.map"]%string
                           (one_file small_map) ["quit"%string]))).
    right. exists "adventure"%string, "other.map"%string.
    split; [reflexivity | vm_compute; reflexivity].
Defined.

Lemma go_command_dispatch_any game input :
  is_go_command input = true →
  ∃ argument, parse_and_execute_command game input = handle_go game argument.
Proof.
  unfold is_go_command, parse_and_execute_command.
  destruct (strtok (lowercase input)) as [[verb rest]|]; [|done].
  destruct (is_direction_word verb) eqn:Hdir.
  - intros _. by exists (Some verb).
  - rewrite orb_false_r. unfold streq. rewrite String.eqb_eq. intros ->.
    by exists (fst <$> strtok rest).
Qed.

Lemma handle_go_along_exit game argument game' :
  handle_go game argument = Some game' →
  current_room (player game') = current_room (player game) ∨
  ∃ i d j, current_room (player game) = Some i ∧
           exit_of game i d = Some j ∧
           current_room (player game') = Some j.
Proof.
  unfold handle_go. destruct argument as [word|]; [|intros [= <-]; by left].
  destruct (direction_of_word word) as [dir|]; [|intros [= <-]; by left].
  destruct (current_room (player game)) as [i|] eqn:Hi; [|done].
  cbn [mbind option_bind].
  destruct (all_rooms game !! i) as [room|] eqn:Hroom; [|done].
  cbn [mbind option_bind].
  destruct (exits room dir) as [next|] eqn:Hexit; [|intros [= <-]; by left].
  intros Hlook. apply handle_look_frame in Hlook as [_ ->].
  right. exists i, dir, next. split; [done|]. split; [|done].
  unfold exit_of. by rewrite Hroom.
Qed.

(** X19.  The player only moves along exits: after any command the
    current room is the one before, or the room of one of its exits. *)
Theorem player_moves_along_exits game input game' :
  parse_and_execute_command game input = Some game' →
  current_room (player game') = current_room (player game) ∨
  ∃ i d j, current_room (player game) = Some i ∧
           exit_of game i d = Some j ∧
           current_room (player game') = Some j.
Proof.
  intros Hcmd. destruct (is_go_command input) eqn:Hgo.
  - destruct (go_command_dispatch_any game input Hgo) as [argument Hdispatch].
    rewrite Hdispatch in Hcmd. by eapply handle_go_along_exit.
  - left. apply parse_and_execute_command_frame in Hcmd as [_ Hplayer].
    by rewrite Hplayer.
Qed.

Lemma player_moves_along_exits_witness :
  ∃ game',
    parse_and_execute_command in_library "n" = Some game' ∧
    exit_of in_library 0 NORTH = Some 1%nat ∧
    (current_room (player game') = current_room (player in_library) ∨
     ∃ i d j, current_room (player in_library) = Some i ∧
              exit_of in_library i d = Some j ∧
              current_room (player game') = Some j).
Proof.
  eexists.
  assert (parse_and_execute_command in_library "n" = Some _) as Hcmd
      by (vm_compute; reflexivity).
  split; [exact Hcmd|]. split; [vm_compute; reflexivity|].
  exact (player_moves_along_exits _ _ _ Hcmd).
Defined.

End SessionExtras.

(** ** Reading the map file *)

Section FileExtras.

Lemma c_str_not_nul l : string_forall not_nul l = true → c_str l = l.
Proof.
  intros Hl. unfold c_str.
  change (λ c, negb (Ascii.eqb c nul)) with not_nul.
  by rewrite (span_all _ _ Hl).
Qed.

Lemma fgets_first_nonempty n c s :
  fst (fgets (S n) (String c s)) ≠ EmptyString.
Proof.
  cbn [fgets]. destruct (Ascii.eqb c newline); [done|].
  by destruct (fgets n s).
Qed.

Lemma string_app_nil_r (s : string) : s +:+ "" = s.
Proof.
  induction s as [|x s IH]; [done|].
  change (String x (s +:+ "") = String x s). by rewrite IH.
Qed.

Lemma string_concat_cons x xs :
  String.concat "" (x :: xs) = x +:+ String.concat "" xs.
Proof.
  destruct xs as [|y ys]; [|reflexivity].
  change (x = x +:+ ""). by rewrite string_app_nil_r.
Qed.

(** What the loop over [fgets] reads, whatever fuel is left once the
    text is covered. *)
Lemma read_lines_covers size fuel s :
  (1 < size)%nat → (String.length s ≤ fuel)%nat →
  string_forall not_nul s = true →
  String.concat "" (read_lines fuel size s) = s ∧
  Forall (λ l, l ≠ EmptyString) (read_lines fuel size s).
Proof.
  intros Hsize. revert s. induction fuel as [|fuel IH]; intros s Hfuel Hs.
  - destruct s; [done | cbn in Hfuel; lia].
  - destruct s as [|c s]; [done|]. cbn [read_lines].
    assert (∃ k, size - 1 = S k)%nat as [k Hk] by (exists (size - 2)%nat; lia).
    rewrite Hk.
    pose proof (fgets_progress k c s) as Hlt.
    pose proof (fgets_app (S k) (String c s)) as Happ.
    pose proof (fgets_first_nonempty k c s) as Hne.
    destruct (fgets (S k) (String c s)) as [l r]; cbn [fst snd] in *.
    rewrite <- Happ, string_forall_app, andb_true_iff in Hs.
    destruct Hs as [Hl Hr]. rewrite (c_str_not_nul _ Hl).
    destruct (IH r) as [Hconcat Hall]; [cbn in Hfuel, Hlt; lia | done |].
    split; [|by constructor].
    by rewrite string_concat_cons, Hconcat.
Qed.

(** X20.  The two passes see the whole of a file that holds no NUL
    character: its lines, joined again, are the text of the file; no
    line is empty and none is longer than the buffer of [LINE_SIZE]
    characters allows. *)
Theorem map_lines_cover_the_file text :
  string_forall not_nul text = true →
  String.concat "" (map_lines text) = text ∧
  Forall (λ l, l ≠ EmptyString ∧ (String.length l < LINE_SIZE)%nat)
         (map_lines text).
Proof.
  intros Htext.
  destruct (read_lines_covers LINE_SIZE (String.length text) text)
    as [Hconcat Hall]; [unfold LINE_SIZE; lia | done | done |].
  split; [exact Hconcat|].
  apply Forall_forall. intros l Hl. split.
  - rewrite Forall_forall in Hall. by apply Hall.
  - by eapply map_lines_length.
Qed.

Lemma map_lines_cover_the_file_witness :
  string_forall not_nul forward_map = true ∧
  String.concat "" (map_lines forward_map) = forward_map ∧
  length (map_lines forward_map) = 4%nat.
Proof.
  assert (string_forall not_nul forward_map = true) as Htext
      by (vm_compute; reflexivity).
  split; [exact Htext|].
  split; [exact (proj1 (map_lines_cover_the_file forward_map Htext))|].
  vm_compute; reflexivity.
Defined.

End FileExtras.
